(** * pdscan: rule lookup, value aggregation and report rendering

    A shallow embedding of [internal/helpers.go].  Go strings are byte
    strings, so they are modelled by [string] (a list of 8-bit [ascii]
    characters); [int] values are carried as [Z] (no arithmetic is ever
    performed on them by this file, they are only compared with 1 and
    printed); standard output is the list of chunks written by the
    successive [fmt.Printf] / [fmt.Println] calls.  The functions are
    first given on lists, where a slice is the list of its elements, and
    then on a memory of backing arrays (module [Mem]), where the writes
    of [append], [v[i] = ...] and [sort.Strings] are explicit; the two
    are proved to agree. *)

From Stdlib Require Import ZArith Ascii String DecimalString.
From stdpp Require Import base gmap list strings sorting.

Local Open Scope Z_scope.

(** ** Library functions of Go used by the file *)

Module Go.

(** [fmt.Sprintf("%d", n)]: decimal digits, with a leading [-] for
    negative numbers. *)
Definition fmt_d (n : Z) : string := NilZero.string_of_int (Z.to_int n).

(** [len(s)] of a string is its number of bytes. *)
Definition len (s : string) : nat := String.length s.

(** [strings.HasSuffix(s, suffix)]:
    [len(s) >= len(suffix) && s[len(s)-len(suffix):] == suffix]. *)
Definition HasSuffix (s suffix : string) : bool :=
  (len suffix <=? len s)%nat &&
  String.eqb (String.substring (len s - len suffix) (len suffix) s) suffix.

(** [strings.Join(elems, sep)]. *)
Definition Join (elems : list string) (sep : string) : string :=
  String.concat sep elems.

End Go.

(** ** [pluralize] *)

Definition pluralize (count : Z) (singular : string) : string :=
  let singular :=
    if negb (count =? 1) then
      if String.eqb singular "index" then "indices"
      else if Go.HasSuffix singular "ch" then singular +:+ "es"
      else singular +:+ "s"
    else singular in
  Go.fmt_d count +:+ " " +:+ singular.

(** ** Data model *)

Module nameRule.
Record t := mk {
  Name : string;
  DisplayName : string;
  ColumnNames : list string;
}.
(** The zero value [nameRule{}]. *)
Definition zero : t := mk "" "" [].
End nameRule.

(** The records that hold a slice of strings are parametrised by the
    representation [S] of such a slice: the list of its elements where
    only its contents matter ([t]), a view of a backing array in the
    memory where sharing matters (see [Mem] below). *)
Module ruleMatch.
Record rep (S : Type) := mk {
  RuleName : string;
  DisplayName : string;
  Confidence : string;
  Identifier : string;
  MatchedData : S;
  MatchType : string;
  LineCount : Z;
}.
Arguments mk {S}.
Arguments RuleName {S}.
Arguments DisplayName {S}.
Arguments Confidence {S}.
Arguments Identifier {S}.
Arguments MatchedData {S}.
Arguments MatchType {S}.
Arguments LineCount {S}.
Abbreviation t := (rep (list string)).
End ruleMatch.

(** [matchInfo] embeds a [ruleMatch]; a [nil] slice of values is [None]. *)
Module matchInfo.
Record rep (S : Type) := mk {
  ruleMatch_ : ruleMatch.rep S;
  Description : string;
  Values : option S;
}.
Arguments mk {S}.
Arguments ruleMatch_ {S}.
Arguments Description {S}.
Arguments Values {S}.
Abbreviation t := (rep (list string)).
End matchInfo.

(** ** [unique], [stringInSlice], [matchNameRule] *)

(** One iteration of the loop of [unique]: the state is the pair of the
    map [keys] and the slice [list]. *)
Definition unique_step (st : gmap string bool * list string) (entry : string)
    : gmap string bool * list string :=
  let '(keys, list) := st in
  match keys !! entry with
  | Some _ => (keys, list)
  | None => (<[entry := true]> keys, list ++ [entry])
  end.

Definition unique (arr : list string) : list string :=
  snd (fold_left unique_step arr (∅, [])).

Fixpoint stringInSlice (a : string) (list : list string) : bool :=
  match list with
  | [] => false
  | b :: list => if String.eqb b a then true else stringInSlice a list
  end.

Fixpoint matchNameRule (name : string) (rules : list nameRule.t) : nameRule.t :=
  match rules with
  | [] => nameRule.zero
  | rule :: rules =>
      if stringInSlice name (nameRule.ColumnNames rule) then rule
      else matchNameRule name rules
  end.

Definition nameRules : list nameRule.t :=
  [ nameRule.mk "surname" "last names" ["lastname"; "lname"; "surname"];
    nameRule.mk "phone" "phone numbers" ["phone"; "phonenumber"];
    nameRule.mk "date_of_birth" "dates of birth" ["dateofbirth"; "birthday"; "dob"];
    nameRule.mk "postal_code" "postal codes" ["zip"; "zipcode"; "postalcode"];
    nameRule.mk "oauth_token" "OAuth tokens" ["accesstoken"; "refreshtoken"] ].

(** ** Regular expressions

    The patterns of the file are compiled by Go's [regexp] package.  The
    syntax tree below covers the operators they use; a pattern is matched
    by backtracking, which tries the alternatives of [|] from left to
    right and the repetitions greedily: this is the leftmost-first
    discipline of [regexp].  Matching is bytewise, which agrees with Go
    on the patterns modelled here: their classes hold ASCII characters
    only, and [\b] is the ASCII word boundary. *)

Inductive regex : Type :=
  | Eps                            (* the empty pattern *)
  | Class (p : ascii → bool)       (* one byte of a class *)
  | Cat (r1 r2 : regex)            (* r1 r2 *)
  | Alt (r1 r2 : regex)            (* r1|r2 *)
  | Star (r : regex)               (* r* *)
  | WordBoundary.                  (* \b *)

Definition Plus (r : regex) : regex := Cat r (Star r).          (* r+ *)

Fixpoint Repeat (n : nat) (r : regex) : regex :=                (* r{n} *)
  match n with O => Eps | S n => Cat r (Repeat n r) end.

Definition Lit (c : ascii) : regex := Class (Ascii.eqb c).

Fixpoint Str (s : string) : regex :=
  match s with
  | EmptyString => Eps
  | String c s => Cat (Lit c) (Str s)
  end.

Definition Seq (rs : list regex) : regex := foldr Cat Eps rs.

(** Character classes. *)
Definition in_range (lo hi c : ascii) : bool :=
  (N_of_ascii lo <=? N_of_ascii c)%N && (N_of_ascii c <=? N_of_ascii hi)%N.

Definition is_digit (c : ascii) : bool := in_range "0" "9" c.       (* \d *)
Definition is_lower (c : ascii) : bool := in_range "a" "z" c.       (* [a-z] *)
Definition is_upper (c : ascii) : bool := in_range "A" "Z" c.       (* [A-Z] *)
Definition is_word (c : ascii) : bool :=                            (* \w *)
  is_digit c || is_upper c || is_lower c || Ascii.eqb c "_".
Definition is_space (c : ascii) : bool :=                           (* \s *)
  match c with
  | "009" | "010" | "012" | "013" | " " => true
  | _ => false
  end%char.
Definition is_hex (c : ascii) : bool :=                      (* [0-9a-fA-F] *)
  is_digit c || in_range "a" "f" c || in_range "A" "F" c.
Definition is_local (c : ascii) : bool :=                         (* [\w+.-] *)
  is_word c || Ascii.eqb c "+" || Ascii.eqb c "." || Ascii.eqb c "-".
Definition is_domain (c : ascii) : bool :=                       (* [a-z\d-] *)
  is_lower c || is_digit c || Ascii.eqb c "-".

(** A position in the text: the byte before it, if any, and the bytes
    from it on. *)
Definition cursor : Type := option ascii * string.

Definition word_before (cur : cursor) : bool :=
  match cur.1 with Some c => is_word c | None => false end.
Definition word_after (cur : cursor) : bool :=
  match cur.2 with String c _ => is_word c | EmptyString => false end.

(** [\b]: a word character on exactly one side. *)
Definition at_word_boundary (cur : cursor) : bool :=
  xorb (word_before cur) (word_after cur).

(** The repetition of [body]: as many rounds as possible first, each of
    which has to consume some input (as the bodies of the repetitions of
    the patterns below always do); [fuel], at least the number of bytes
    left, bounds the number of rounds. *)
Fixpoint run_star {A} (body : cursor → (cursor → option A) → option A)
    (fuel : nat) (cur : cursor) (k : cursor → option A) : option A :=
  match fuel with
  | O => k cur
  | S fuel =>
      match body cur (λ cur',
              if (String.length cur'.2 <? String.length cur.2)%nat
              then run_star body fuel cur' k else None) with
      | Some a => Some a
      | None => k cur
      end
  end.

(** [run r cur k] matches [r] at [cur] and hands the position after the
    match to [k]; when [k] refuses it, the next way of matching [r] is
    tried. *)
Fixpoint run {A} (r : regex) (cur : cursor) (k : cursor → option A) : option A :=
  match r with
  | Eps => k cur
  | Class p =>
      match cur.2 with
      | String c rest => if p c then k (Some c, rest) else None
      | EmptyString => None
      end
  | Cat r1 r2 => run r1 cur (λ cur', run r2 cur' k)
  | Alt r1 r2 =>
      match run r1 cur k with
      | Some a => Some a
      | None => run r2 cur k
      end
  | Star r => run_star (run r) (String.length cur.2) cur k
  | WordBoundary => if at_word_boundary cur then k cur else None
  end.

(** The match of [r] that starts at [cur], if there is one: the position
    where it ends. *)
Definition match_at (r : regex) (cur : cursor) : option cursor := run r cur Some.

(** [re.MatchString(s)]: does some substring of [s] match? *)
Fixpoint search (r : regex) (prev : option ascii) (s : string) : bool :=
  match match_at r (prev, s) with
  | Some _ => true
  | None =>
      match s with
      | String c s' => search r (Some c) s'
      | EmptyString => false
      end
  end.

Definition MatchString (r : regex) (s : string) : bool := search r None s.

(** [re.ReplaceAllString(src, repl)] for a replacement text without [$]:
    the matches are looked for from left to right and each is replaced.
    [skip] counts the bytes of the current match still to be dropped, and
    [after_match] tells that a match ended at the current position (an
    empty match there is then not replaced again). *)
Fixpoint replace_from (r : regex) (repl : string) (prev : option ascii)
    (skip : nat) (after_match : bool) (s : string) : string :=
  match skip with
  | S skip =>
      match s with
      | String c s' => replace_from r repl (Some c) skip true s'
      | EmptyString => EmptyString
      end
  | O =>
      let copy :=
        match s with
        | String c s' => String c (replace_from r repl (Some c) 0 false s')
        | EmptyString => EmptyString
        end in
      match match_at r (prev, s) with
      | None => copy
      | Some (_, rest) =>
          match (String.length s - String.length rest)%nat with
          | O => (if after_match then "" else repl) +:+ copy
          | S n =>
              repl +:+
              match s with
              | String c s' => replace_from r repl (Some c) n true s'
              | EmptyString => EmptyString
              end
          end
      end
  end.

Definition ReplaceAllString (r : regex) (src repl : string) : string :=
  replace_from r repl None 0 false src.

(** [var space = regexp.MustCompile(`\s+`)] *)
Definition space : regex := Plus (Class is_space).

(** The [email] and [mac] entries of [regexRules]:
    [\b[\w][\w+.-]+(@|%40)[a-z\d-]+(\.[a-z\d-]+)*\.[a-z]+\b] and
    [\b[0-9a-fA-F]{2}(?:(?::|%3A)[0-9a-fA-F]{2}){5}\b]. *)
Module regexRule.
Record t := mk {
  Name : string;
  DisplayName : string;
  Regex : regex;
}.
End regexRule.

Definition emailRegex : regex :=
  Seq [ WordBoundary;                               (* \b *)
        Class is_word;                              (* [\w] *)
        Plus (Class is_local);                      (* [\w+.-]+ *)
        Alt (Lit "@") (Str "%40");                  (* (@|%40) *)
        Plus (Class is_domain);                     (* [a-z\d-]+ *)
        Star (Seq [Lit "."; Plus (Class is_domain)]); (* (\.[a-z\d-]+)* *)
        Lit ".";                                    (* \. *)
        Plus (Class is_lower);                      (* [a-z]+ *)
        WordBoundary ].                             (* \b *)

Definition macRegex : regex :=
  Seq [ WordBoundary;                               (* \b *)
        Repeat 2 (Class is_hex);                    (* [0-9a-fA-F]{2} *)
        Repeat 5 (Seq [ Alt (Lit ":") (Str "%3A");  (* (?:(?::|%3A) *)
                        Repeat 2 (Class is_hex) ]); (*  [0-9a-fA-F]{2}){5} *)
        WordBoundary ].                             (* \b *)

Definition emailRule : regexRule.t := regexRule.mk "email" "emails" emailRegex.
Definition macRule : regexRule.t := regexRule.mk "mac" "MAC addresses" macRegex.

(** Texts for the patterns.  [all_chars p s]: every byte of [s] is of
    class [p]; [last_byte prev s]: the byte before the end of [s], when
    [prev] is the byte before [s]; [join_octets sep os]: the two-digit
    groups [os] separated by [sep]. *)
Fixpoint all_chars (p : ascii → bool) (s : string) : bool :=
  match s with
  | EmptyString => true
  | String c s => p c && all_chars p s
  end.

Fixpoint last_byte (prev : option ascii) (s : string) : option ascii :=
  match s with
  | EmptyString => prev
  | String c s => last_byte (Some c) s
  end.

Fixpoint join_octets (sep : string) (octets : list (ascii * ascii)) : string :=
  match octets with
  | [] => EmptyString
  | (a, b) :: octets =>
      String a (String b
        match octets with
        | [] => EmptyString
        | _ :: _ => sep +:+ join_octets sep octets
        end)
  end.

(** ** Whitespace normalisation, as the specification words it

    Every run of whitespace becomes a single blank.  [in_run] tells that
    the previous byte belonged to a run that is already replaced. *)
Fixpoint collapse_from (in_run : bool) (s : string) : string :=
  match s with
  | EmptyString => EmptyString
  | String c s' =>
      if is_space c then
        if in_run then collapse_from true s'
        else String " "%char (collapse_from true s')
      else String c (collapse_from false s')
  end.

Definition collapse_runs (s : string) : string := collapse_from false s.

(** The number of bytes of class [p] at the head of [s]. *)
Fixpoint span (p : ascii → bool) (s : string) : nat :=
  match s with
  | String c s' => if p c then S (span p s') else O
  | EmptyString => O
  end.

(** ** Deduplication, as the specification words it

    Of the strings that are equal only the first one is kept, the others
    stay in the order in which they were first seen. *)
Fixpoint first_occurrences (l : list string) : list string :=
  match l with
  | [] => []
  | x :: l => x :: filter (λ y, y ≠ x) (first_occurrences l)
  end.

(** ** The values of a match *)

(** [sort.Strings] sorts in increasing order of Go's [<] on strings,
    the bytewise lexicographic order. *)
Definition sort_Strings (v : list string) : list string :=
  merge_sort String.le v.

(** The loop [for i, v2 := range v { v[i] = space.ReplaceAllString(v2, " ") }],
    started at index [i] with [n] iterations left; [i] stays below
    [len(v)]. *)
Fixpoint normalize_loop (n i : nat) (v : list string) : list string :=
  match n with
  | O => v
  | S n =>
      match v !! i with
      | Some v2 =>
          normalize_loop n (S i) (<[i := ReplaceAllString space v2 " "]> v)
      | None => v
      end
  end.

(** Lines 155-169 of [printMatchList]: the slice [values]. *)
Definition matchValues (showData : bool) (MatchedData : list string)
    : option (list string) :=
  if showData then
    let v := unique MatchedData in
    if (0 <? length v)%nat then
      let v := if (50 <? length v)%nat then take 50 v else v in
      let v := normalize_loop (length v) 0 v in
      Some (sort_Strings v)
    else Some v
  else None.

(** Idempotence of the aggregation at the list [md], as the
    specification states it: aggregating the aggregated list gives it
    back. *)
Definition aggregation_idempotent_at (md : list string) : Prop :=
  ∀ vals, matchValues true md = Some vals → matchValues true vals = Some vals.

(** Sixty pairwise different values: the one-byte strings of codes 0 to 59. *)
Definition sixty_values : list string :=
  (λ n, String (ascii_of_nat n) EmptyString) <$> seq 0 60.

(** ** Rendering *)

Definition nl : string := String "010"%char EmptyString.

(** Lines 138-153 of [printMatchList]: the description of a match. *)
Definition description {S} (m : ruleMatch.rep S) (rowStr : string) : string :=
  let count := ruleMatch.LineCount m in
  if String.eqb (ruleMatch.MatchType m) "name" then
    "possible " +:+ ruleMatch.DisplayName m +:+ " (name match)"
  else
    let str := pluralize count rowStr in
    let str :=
      if String.eqb (ruleMatch.Confidence m) "low"
      then str +:+ ", low confidence" else str in
    if String.eqb rowStr "key" then
      "found " +:+ ruleMatch.DisplayName m
    else
      "found " +:+ ruleMatch.DisplayName m +:+ " (" +:+ str +:+ ")".

(** Standard output: the chunks written so far, oldest first. *)
Definition stdout := list string.

Definition Println (s : string) (out : stdout) : stdout := out ++ [s +:+ nl].

Section Render.

(** [color.New(color.FgYellow).SprintFunc()], a function of the
    [fatih/color] package: what it returns depends on the terminal. *)
Variable yellow : string → string.

Definition printMatch (m : matchInfo.t) (out : stdout) : stdout :=
  let out :=
    out ++ [yellow (ruleMatch.Identifier (matchInfo.ruleMatch_ m) +:+ ":")
            +:+ " " +:+ matchInfo.Description m +:+ nl] in
  match matchInfo.Values m with
  | Some values =>
      let out :=
        if (0 <? length values)%nat
        then Println ("    " +:+ Go.Join values ", ") out else out in
      Println "" out
  | None => out
  end.

(** The body of the loop of [printMatchList]. *)
Definition printMatchList_step (showData showAll : bool) (rowStr : string)
    (out : stdout) (m : ruleMatch.t) : stdout :=
  if showAll || negb (String.eqb (ruleMatch.Confidence m) "low") then
    printMatch
      (matchInfo.mk m (description m rowStr)
         (matchValues showData (ruleMatch.MatchedData m))) out
  else out.

Definition printMatchList (matchList : list ruleMatch.t)
    (showData showAll : bool) (rowStr : string) (out : stdout) : stdout :=
  fold_left (printMatchList_step showData showAll rowStr) matchList out.

(** The line that describes the match [m]. *)
Definition descriptionLine (m : ruleMatch.t) (rowStr : string) : string :=
  yellow (ruleMatch.Identifier m +:+ ":") +:+ " " +:+ description m rowStr +:+ nl.

(** What [printMatch] writes for the match [m] when it is rendered. *)
Definition match_lines (showData : bool) (rowStr : string) (m : ruleMatch.t)
    : stdout :=
  printMatch
    (matchInfo.mk m (description m rowStr)
       (matchValues showData (ruleMatch.MatchedData m))) [].

(** The specification on a rendered match without values: nothing is
    printed after its description line. *)
Definition nothing_after_description (showData : bool) (rowStr : string)
    (m : ruleMatch.t) : Prop :=
  ruleMatch.MatchedData m = [] →
  match_lines showData rowStr m = [descriptionLine m rowStr].

End Render.

Definition lowConfidence_step (acc : list ruleMatch.t) (m : ruleMatch.t)
    : list ruleMatch.t :=
  if String.eqb (ruleMatch.Confidence m) "low" then acc ++ [m] else acc.

Definition showLowConfidenceMatchHelp (matchList : list ruleMatch.t)
    (out : stdout) : stdout :=
  let lowConfidenceMatches := fold_left lowConfidence_step matchList [] in
  if (0 <? length lowConfidenceMatches)%nat then
    Println ("Also found "
             +:+ pluralize (Z.of_nat (length lowConfidenceMatches))
                   "low confidence match"
             +:+ ". Use --show-all to view them") out
  else out.

(** The two renderings of [yellow]: colour disabled, and the ANSI escape
    sequences of the foreground colour 33. *)
Definition yellow_plain (s : string) : string := s.
Definition yellow_ansi (s : string) : string :=
  String "027"%char "[33m" +:+ s +:+ String "027"%char "[0m".


(** ** The same functions on slices that share backing arrays

    A Go slice is a view of a backing array: a pointer, a length and a
    capacity.  The memory maps the address of every array to its
    elements; a slice names the array, the offset of its first element
    in it, its length and its capacity.  Writing through a slice changes
    the array for every slice that views it.  The functions of the file
    are given a second time on this memory, statement by statement, so
    that what they write can be told from what they only read. *)
Module Mem.

Definition loc := positive.

Record slice := Slice { ptr : loc; off : nat; len : nat; cap : nat }.

Abbreviation heap := (gmap loc (list string)).

(** The address that every slice without capacity points to. *)
Definition zerobase : loc := 1%positive.

(** [[]string{}] *)
Definition empty : slice := Slice zerobase 0 0 0.

Definition array (h : heap) (l : loc) : list string := default [] (h !! l).

(** The elements of the slice [s]. *)
Definition elems (h : heap) (s : slice) : list string :=
  take (len s) (drop (off s) (array h (ptr s))).

(** [s[i]], for [i] below [len(s)]. *)
Definition index (h : heap) (s : slice) (i : nat) : string :=
  default "" (array h (ptr s) !! (off s + i)%nat).

(** [s[i] = x], for [i] below [len(s)]. *)
Definition store (s : slice) (i : nat) (x : string) (h : heap) : heap :=
  alter (λ a, <[(off s + i)%nat := x]> a) (ptr s) h.

(** [s[0:hi]], for [hi] up to [cap(s)]. *)
Definition reslice (s : slice) (hi : nat) : slice :=
  Slice (ptr s) (off s) hi (cap s).

(** The invariant of a slice: its length is within its capacity, and
    its capacity within its array. *)
Definition valid (h : heap) (s : slice) : Prop :=
  (len s ≤ cap s)%nat ∧
  (cap s = 0%nat ∨
   ∃ a, h !! ptr s = Some a ∧ (off s + cap s ≤ length a)%nat).

(** [sort.Strings(v)] sorts the elements of [v] in place. *)
Definition sort_Strings (v : slice) (h : heap) : heap :=
  alter (λ a, take (off v) a
              ++ sort_Strings (take (len v) (drop (off v) a))
              ++ drop (off v + len v) a) (ptr v) h.

(** The loop over [v] of [printMatchList], see [normalize_loop]. *)
Fixpoint normalize_loop (n i : nat) (v : slice) (h : heap) : heap :=
  match n with
  | O => h
  | S n =>
      let v2 := index h v i in
      normalize_loop n (S i) v (store v i (ReplaceAllString space v2 " ") h)
  end.

Section Functions.

(** The capacity that the runtime gives to the new array when
    [append] has to grow a full slice of capacity [c]: more than [c]. *)
Variable growslice : nat → nat.

(** [append(s, x)]: in place when the capacity allows it, and else
    in a new array that gets the elements of [s]. *)
Definition append (s : slice) (x : string) (h : heap) : slice * heap :=
  if (len s <? cap s)%nat then
    (Slice (ptr s) (off s) (S (len s)) (cap s), store s (len s) x h)
  else
    let c := growslice (cap s) in
    let l := fresh ({[zerobase]} ∪ dom h) in
    (Slice l 0 (S (len s)) c,
     <[l := elems h s ++ x :: replicate (c - S (len s)) ""]> h).

Definition unique_step (arr : slice)
    (st : gmap string bool * slice * heap) (i : nat)
    : gmap string bool * slice * heap :=
  let '(keys, list, h) := st in
  let entry := index h arr i in
  match keys !! entry with
  | Some _ => (keys, list, h)
  | None =>
      let '(list, h) := append list entry h in
      (<[entry := true]> keys, list, h)
  end.

Definition unique (arr : slice) (h : heap) : slice * heap :=
  let '(_, list, h) :=
    fold_left (unique_step arr) (seq 0 (len arr)) (∅, empty, h) in
  (list, h).

Definition matchValues (showData : bool) (MatchedData : slice) (h : heap)
    : option slice * heap :=
  if showData then
    let '(v, h) := unique MatchedData h in
    if (0 <? len v)%nat then
      let v := if (50 <? len v)%nat then reslice v 50 else v in
      let h := normalize_loop (len v) 0 v h in
      let h := sort_Strings v h in
      (Some v, h)
    else (Some v, h)
  else (None, h).

Variable yellow : string → string.

Definition printMatch (m : matchInfo.rep slice) (h : heap) (out : stdout)
    : stdout :=
  let out :=
    out ++ [yellow (ruleMatch.Identifier (matchInfo.ruleMatch_ m) +:+ ":")
            +:+ " " +:+ matchInfo.Description m +:+ nl] in
  match matchInfo.Values m with
  | Some values =>
      let out :=
        if (0 <? len values)%nat
        then Println ("    " +:+ Go.Join (elems h values) ", ") out else out in
      Println "" out
  | None => out
  end.

Definition printMatchList_step (showData showAll : bool) (rowStr : string)
    (st : stdout * heap) (m : ruleMatch.rep slice) : stdout * heap :=
  let '(out, h) := st in
  if showAll || negb (String.eqb (ruleMatch.Confidence m) "low") then
    let '(values, h) := matchValues showData (ruleMatch.MatchedData m) h in
    (printMatch (matchInfo.mk m (description m rowStr) values) h out, h)
  else (out, h).

Definition printMatchList (matchList : list (ruleMatch.rep slice))
    (showData showAll : bool) (rowStr : string) (st : stdout * heap)
    : stdout * heap :=
  fold_left (printMatchList_step showData showAll rowStr) matchList st.

End Functions.

(** [s] views no array of [h]: nothing written through [s] is seen in
    [h]. *)
Definition fresh_for (h : heap) (s : slice) : Prop :=
  cap s = 0%nat ∨ ptr s ∉ dom h.

(** The match with the list of the elements of its data. *)
Definition contents (h : heap) (m : ruleMatch.rep slice) : ruleMatch.t :=
  ruleMatch.mk (ruleMatch.RuleName m) (ruleMatch.DisplayName m)
    (ruleMatch.Confidence m) (ruleMatch.Identifier m)
    (elems h (ruleMatch.MatchedData m))
    (ruleMatch.MatchType m) (ruleMatch.LineCount m).

(** A growth policy: twice the capacity, and one more. *)
Definition double (c : nat) : nat := S (2 * c).

(** A memory with one array of four strings, and two matches whose
    data are views of it that overlap. *)
Definition h0 : heap := {[ 5%positive := ["b  c"; "a"; "b  c"; "d"] ]}.
Definition m1 : ruleMatch.rep slice :=
  ruleMatch.mk "email" "emails" "high" "t.a" (Slice 5%positive 0 3 4) "value" 3.
Definition m2 : ruleMatch.rep slice :=
  ruleMatch.mk "email" "emails" "low" "t.b" (Slice 5%positive 1 3 3) "value" 3.

End Mem.


(** Three matches used as examples: a name match, which has no data,
    and two value matches. *)
Definition m_surname : ruleMatch.t :=
  ruleMatch.mk "surname" "last names" "high" "users.lname" [] "name" 10.
Definition m_email : ruleMatch.t :=
  ruleMatch.mk "email" "emails" "low" "users.bio"
    ["b@x.org"; "a@x.org"; "b@x.org"] "value" 10.

Definition m_ip : ruleMatch.t :=
  ruleMatch.mk "ip" "IP addresses" "high" "logs.addr" ["10.0.0.1"] "value" 1.

(** ** Texts with normalised whitespace

    [single_blanks after_blank s]: the only whitespace of [s] is the
    blank, and no blank follows a blank ([after_blank] tells that the
    byte before [s] is one).  [no_line_break s]: no byte of [s] is a
    line feed. *)
Fixpoint single_blanks (after_blank : bool) (s : string) : bool :=
  match s with
  | EmptyString => true
  | String c s' =>
      if is_space c
      then Ascii.eqb c " " && negb after_blank && single_blanks true s'
      else single_blanks false s'
  end.

Definition normalised (s : string) : bool := single_blanks false s.


(** The matches that [printMatchList] renders. *)
Definition rendered (showAll : bool) (m : ruleMatch.t) : Prop :=
  showAll = true ∨ ruleMatch.Confidence m ≠ "low".

Global Instance rendered_dec showAll m : Decision (rendered showAll m).
Proof. unfold rendered. apply _. Defined.

(** ** More entries of [regexRules]

    [r?] and [r{m,n}] are greedy: one more [r] is tried before none. *)
Definition Opt (r : regex) : regex := Alt r Eps.                    (* r? *)

Fixpoint OptChain (n : nat) (r : regex) : regex :=          (* (r(r...)?)? *)
  match n with O => Eps | S n => Opt (Cat r (OptChain n r)) end.

Definition RepeatRange (m n : nat) (r : regex) : regex :=       (* r{m,n} *)
  Cat (Repeat m r) (OptChain (n - m) r).

Definition is_dash_sep (c : ascii) : bool :=                       (* [\s+-] *)
  is_space c || Ascii.eqb c "+" || Ascii.eqb c "-".
Definition is_dot_sep (c : ascii) : bool :=                       (* [\s+.-] *)
  is_space c || Ascii.eqb c "+" || Ascii.eqb c "." || Ascii.eqb c "-".
Definition is_card_lead (c : ascii) : bool := in_range "3" "6" c. (* [3456] *)
Definition is_nonzero (c : ascii) : bool := in_range "1" "9" c.    (* [1-9] *)

(** [\b\d{1,3}\.\d{1,3}\.\d{1,3}\.\d{1,3}\b] *)
Definition ipRegex : regex :=
  Seq [ WordBoundary;
        RepeatRange 1 3 (Class is_digit); Lit ".";
        RepeatRange 1 3 (Class is_digit); Lit ".";
        RepeatRange 1 3 (Class is_digit); Lit ".";
        RepeatRange 1 3 (Class is_digit);
        WordBoundary ].

(** [(\b[3456]\d{3}[\s+-]\d{4}[\s+-]\d{4}[\s+-]\d{4}\b)|(\b[3456]\d{15}\b)] *)
Definition creditCardRegex : regex :=
  Alt (Seq [ WordBoundary; Class is_card_lead; Repeat 3 (Class is_digit);
             Class is_dash_sep; Repeat 4 (Class is_digit);
             Class is_dash_sep; Repeat 4 (Class is_digit);
             Class is_dash_sep; Repeat 4 (Class is_digit); WordBoundary ])
      (Seq [ WordBoundary; Class is_card_lead; Repeat 15 (Class is_digit);
             WordBoundary ]).

(** [(\b(\+\d{1,2}\s)?\(?\d{3}\)?[\s+.-]\d{3}[\s+.-]\d{4}\b)|((?:\+|%2B)[1-9]\d{6,14}\b)] *)
Definition phoneRegex : regex :=
  Alt (Seq [ WordBoundary;
             Opt (Seq [Lit "+"; RepeatRange 1 2 (Class is_digit); Class is_space]);
             Opt (Lit "("); Repeat 3 (Class is_digit); Opt (Lit ")");
             Class is_dot_sep; Repeat 3 (Class is_digit);
             Class is_dot_sep; Repeat 4 (Class is_digit); WordBoundary ])
      (Seq [ Alt (Lit "+") (Str "%2B"); Class is_nonzero;
             RepeatRange 6 14 (Class is_digit); WordBoundary ]).

(** [\b\d{3}[\s+-]\d{2}[\s+-]\d{4}\b] *)
Definition ssnRegex : regex :=
  Seq [ WordBoundary; Repeat 3 (Class is_digit);
        Class is_dash_sep; Repeat 2 (Class is_digit);
        Class is_dash_sep; Repeat 4 (Class is_digit); WordBoundary ].

Definition ipRule : regexRule.t := regexRule.mk "ip" "IP addresses" ipRegex.
Definition creditCardRule : regexRule.t :=
  regexRule.mk "credit_card" "credit card numbers" creditCardRegex.
Definition phoneRule : regexRule.t :=
  regexRule.mk "phone" "phone numbers" phoneRegex.
Definition ssnRule : regexRule.t := regexRule.mk "ssn" "SSNs" ssnRegex.

(** ** What a pattern matches

    [Matches r c1 c2]: [r] matches the text between the positions [c1]
    and [c2]. *)
Inductive Matches : regex → cursor → cursor → Prop :=
  | Matches_Eps cur : Matches Eps cur cur
  | Matches_Class p prev c rest :
      p c = true → Matches (Class p) (prev, String c rest) (Some c, rest)
  | Matches_Cat r1 r2 c1 c2 c3 :
      Matches r1 c1 c2 → Matches r2 c2 c3 → Matches (Cat r1 r2) c1 c3
  | Matches_Alt_l r1 r2 c1 c2 : Matches r1 c1 c2 → Matches (Alt r1 r2) c1 c2
  | Matches_Alt_r r1 r2 c1 c2 : Matches r2 c1 c2 → Matches (Alt r1 r2) c1 c2
  | Matches_Star_stop r cur : Matches (Star r) cur cur
  | Matches_Star_more r c1 c2 c3 :
      Matches r c1 c2 → Matches (Star r) c2 c3 → Matches (Star r) c1 c3
  | Matches_WordBoundary cur :
      at_word_boundary cur = true → Matches WordBoundary cur cur.

(** [n] digits. *)
Definition digits (n : nat) (g : string) : Prop :=
  String.length g = n ∧ all_chars is_digit g = true.

(** The byte before the position, the byte after it: not of a word. *)
Definition free_before (pre : string) : Prop :=
  word_before (last_byte None pre, "") = false.
Definition free_after (post : string) : Prop :=
  word_after (None, post) = false.

(** Between [m] and [n] digits. *)
Definition digits_between (m n : nat) (g : string) : Prop :=
  (m ≤ String.length g ≤ n)%nat ∧ all_chars is_digit g = true.

(** A text made of bytes of the class [p], at least one. *)
Definition some_chars (p : ascii → bool) (g : string) : Prop :=
  g ≠ "" ∧ all_chars p g = true.

(** The groups of a separator and two digits, one after the other; a
    separator is ":" or "%3A", the digits are hexadecimal. *)
Fixpoint mac_tail (groups : list (string * string)) : string :=
  match groups with
  | [] => EmptyString
  | (sep, o) :: groups => sep +:+ o +:+ mac_tail groups
  end.

Definition hex_pair (o : string) : Prop :=
  String.length o = 2%nat ∧ all_chars is_hex o = true.

Definition mac_group (g : string * string) : Prop :=
  (g.1 = ":" ∨ g.1 = "%3A") ∧ hex_pair g.2.

(** The labels, each after a dot. *)
Fixpoint dotted (labels : list string) : string :=
  match labels with
  | [] => EmptyString
  | l :: labels => String "." (l +:+ dotted labels)
  end.

(** The optional parts of a phone number: [o] is [lit] or nothing; a
    country code is nothing, or "+", one or two digits and a whitespace
    byte. *)
Definition optional (lit o : string) : Prop := o = "" ∨ o = lit.

Definition country_code (cc : string) : Prop :=
  cc = "" ∨
  ∃ n w, cc = String "+" (n +:+ String w "") ∧ digits_between 1 2 n ∧
         is_space w = true.

(** [var urlPassword = regexp.MustCompile(`((\/\/|%2F%2F)\S+(:|%3A))\S+(@|%40)`)];
    [\S] is any byte but the whitespace of [\s]. *)
Definition not_space (c : ascii) : bool := negb (is_space c).       (* \S *)

Definition urlPassword : regex :=
  Seq [ Alt (Str "//") (Str "%2F%2F");              (* (\/\/|%2F%2F) *)
        Plus (Class not_space);                     (* \S+ *)
        Alt (Lit ":") (Str "%3A");                  (* (:|%3A) *)
        Plus (Class not_space);                     (* \S+ *)
        Alt (Lit "@") (Str "%40") ].                (* (@|%40) *)

(** * Properties *)

(** Closed decidable propositions are settled by evaluation. *)
Ltac by_decide := apply (bool_decide_unpack _); vm_compute; exact I.

(** ** Strings *)

Lemma app_String c s t : String c s +:+ t = String c (s +:+ t).
Proof. reflexivity. Qed.

Lemma app_empty_l s : "" +:+ s = s.
Proof. reflexivity. Qed.

Lemma app_empty_r s : s +:+ "" = s.
Proof. induction s as [|c s IH]; [done|]. by rewrite app_String, IH. Qed.

Lemma app_assoc_str s t u : (s +:+ t) +:+ u = s +:+ t +:+ u.
Proof. induction s as [|c s IH]; [done|]. by rewrite !app_String, IH. Qed.

Lemma length_app_str s t :
  String.length (s +:+ t) = (String.length s + String.length t)%nat.
Proof. induction s as [|c s IH]; [done|]. rewrite app_String. simpl. by rewrite IH. Qed.

Lemma substring_all s : substring 0 (String.length s) s = s.
Proof. induction s as [|c s IH]; [done|]. simpl. by rewrite IH. Qed.

Lemma substring_app_r p s :
  substring (String.length p) (String.length s) (p +:+ s) = s.
Proof.
  induction p as [|c p IH]; [apply substring_all|].
  rewrite app_String. simpl. apply IH.
Qed.

Lemma substring_split s k :
  (k ≤ String.length s)%nat →
  s = substring 0 k s +:+ substring k (String.length s - k) s.
Proof.
  revert k. induction s as [|c s IH]; intros [|k] Hk; simpl in *; try lia.
  - done.
  - by rewrite app_empty_l, substring_all.
  - rewrite app_String. f_equal. apply IH. lia.
Qed.

(** [strings.HasSuffix] tells whether the string ends with the suffix. *)
Lemma HasSuffix_spec s suffix :
  Go.HasSuffix s suffix = true ↔ ∃ p, s = p +:+ suffix.
Proof.
  unfold Go.HasSuffix, Go.len. rewrite andb_true_iff, Nat.leb_le, String.eqb_eq.
  split.
  - intros [Hle Hsub].
    exists (substring 0 (String.length s - String.length suffix) s).
    assert (String.length suffix
            = String.length s - (String.length s - String.length suffix))%nat
      as Hlen by lia.
    rewrite Hlen in Hsub at 2. rewrite <- Hsub at 2.
    apply substring_split. lia.
  - intros [p ->]. rewrite length_app_str. split; [lia|].
    replace (String.length p + String.length suffix - String.length suffix)%nat
      with (String.length p) by lia.
    apply substring_app_r.
Qed.

(** ** The pattern [space] *)

Lemma run_star_class_span {p} fuel prev s :
  (String.length s ≤ fuel)%nat →
  ∃ prev' rest,
    run_star (run (Class p)) fuel (prev, s) Some = Some (prev', rest) ∧
    (String.length rest ≤ String.length s)%nat ∧
    (String.length s - String.length rest)%nat = span p s.
Proof.
  set (body := run (A:=cursor) (Class p)).
  assert (∀ cur k, body cur k =
            match cur.2 with
            | String c rest => if p c then k (Some c, rest) else None
            | EmptyString => None
            end) as Hbody by done.
  clearbody body.
  revert prev s. induction fuel as [|fuel IH]; intros prev s Hfuel.
  - destruct s; simpl in *; [|lia]. by exists prev, "".
  - simpl. rewrite Hbody. destruct s as [|c s]; simpl.
    + by exists prev, "".
    + destruct (p c) eqn:Hc.
      * assert ((String.length s <? S (String.length s))%nat = true) as ->
          by (apply Nat.ltb_lt; lia).
        destruct (IH (Some c) s) as (prev' & rest & -> & Hle & Hspan);
          [simpl in Hfuel; lia|].
        exists prev', rest. split; [done|]. split; lia.
      * exists prev, (String c s). split; [done|]. simpl. split; lia.
Qed.

Lemma match_at_space prev s :
  match span is_space s with
  | O => match_at space (prev, s) = None
  | S n =>
      ∃ prev' rest, match_at space (prev, s) = Some (prev', rest) ∧
        (String.length s - String.length rest)%nat = S n
  end.
Proof.
  destruct s as [|c s]; [done|].
  unfold match_at, space, Plus.
  change (run (Cat (Class is_space) (Star (Class is_space)))
            (prev, String c s) Some)
    with (if is_space c
          then run_star (run (Class is_space)) (String.length s) (Some c, s) Some
          else None).
  simpl span. destruct (is_space c); [|done].
  destruct (run_star_class_span (p:=is_space) (String.length s) (Some c) s)
    as (prev' & rest & -> & Hle & Hspan); [done|].
  exists prev', rest. split; [done|]. simpl String.length. lia.
Qed.

Lemma replace_from_O r repl prev am s :
  replace_from r repl prev 0 am s =
  let copy :=
    match s with
    | String c s' => String c (replace_from r repl (Some c) 0 false s')
    | EmptyString => EmptyString
    end in
  match match_at r (prev, s) with
  | None => copy
  | Some (_, rest) =>
      match (String.length s - String.length rest)%nat with
      | O => (if am then "" else repl) +:+ copy
      | S n =>
          repl +:+
          match s with
          | String c s' => replace_from r repl (Some c) n true s'
          | EmptyString => EmptyString
          end
      end
  end.
Proof. by destruct s. Qed.

Lemma replace_from_space s :
  (∀ prev am, replace_from space " " prev 0 am s = collapse_from false s) ∧
  (∀ prev, replace_from space " " prev (span is_space s) true s
           = collapse_from true s).
Proof.
  induction s as [|c s [IH0 IHskip]].
  - split; intros; done.
  - assert (∀ prev am, replace_from space " " prev 0 am (String c s)
                       = collapse_from false (String c s)) as Hzero.
    { intros prev am. rewrite replace_from_O. cbv zeta.
      pose proof (match_at_space prev (String c s)) as Hm. simpl in Hm |- *.
      destruct (is_space c).
      - destruct Hm as (prev' & rest & -> & ->). by rewrite IHskip.
      - by rewrite Hm, IH0. }
    split; [done|]. intros prev. simpl span. simpl collapse_from.
    destruct (is_space c) eqn:Hc.
    + simpl. apply IHskip.
    + rewrite Hzero. simpl. by rewrite Hc.
Qed.

(** Replacing the matches of [\s+] by one blank collapses the runs of
    whitespace. *)
Lemma ReplaceAllString_space s : ReplaceAllString space s " " = collapse_runs s.
Proof. apply replace_from_space. Qed.

Lemma collapse_from_idemp b s :
  collapse_from b (collapse_from b s) = collapse_from b s.
Proof.
  revert b. induction s as [|c s IH]; intros b; [done|]. simpl.
  destruct (is_space c) eqn:Hc.
  - destruct b; [apply IH|]. simpl. by rewrite IH.
  - simpl. by rewrite Hc, IH.
Qed.

Lemma collapse_runs_idemp s : collapse_runs (collapse_runs s) = collapse_runs s.
Proof. apply collapse_from_idemp. Qed.

(** ** Pluralisation *)

(** C4: [pluralize n s] is the decimal count, a blank and the noun; the
    noun is left as it is when the count is 1, and otherwise "index"
    becomes "indices", a noun ending in "ch" gets "es" and every other
    noun gets "s".  The four examples of the specification follow. *)
Theorem pluralize_spec (n : Z) (s : string) :
  (n = 1 → pluralize n s = Go.fmt_d n +:+ " " +:+ s) ∧
  (n ≠ 1 → s = "index" → pluralize n s = Go.fmt_d n +:+ " " +:+ "indices") ∧
  (n ≠ 1 → s ≠ "index" → (∃ p, s = p +:+ "ch") →
     pluralize n s = Go.fmt_d n +:+ " " +:+ s +:+ "es") ∧
  (n ≠ 1 → s ≠ "index" → ¬ (∃ p, s = p +:+ "ch") →
     pluralize n s = Go.fmt_d n +:+ " " +:+ s +:+ "s") ∧
  pluralize 0 "email" = "0 emails" ∧
  pluralize 1 "email" = "1 email" ∧
  pluralize 2 "index" = "2 indices" ∧
  pluralize 2 "branch" = "2 branches".
Proof.
  unfold pluralize. repeat split; try reflexivity.
  - intros ->. reflexivity.
  - intros Hn ->. apply Z.eqb_neq in Hn. by rewrite Hn.
  - intros Hn Hs Hch. apply Z.eqb_neq in Hn. apply String.eqb_neq in Hs.
    apply HasSuffix_spec in Hch. by rewrite Hn, Hs, Hch.
  - intros Hn Hs Hch. apply Z.eqb_neq in Hn. apply String.eqb_neq in Hs.
    rewrite <- HasSuffix_spec in Hch. apply not_true_is_false in Hch.
    by rewrite Hn, Hs, Hch.
Qed.

Lemma pluralize_spec_witness :
  pluralize 1 "key" = "1 key" ∧ pluralize 5 "index" = "5 indices" ∧
  pluralize 0 "match" = "0 matches" ∧ pluralize (-2) "row" = "-2 rows".
Proof.
  split; [|split; [|split]].
  - apply (pluralize_spec 1 "key"). reflexivity.
  - apply (pluralize_spec 5 "index"); [lia|reflexivity].
  - apply (pluralize_spec 0 "match"); [lia|discriminate|]. by exists "mat".
  - apply (pluralize_spec (-2) "row"); [lia|discriminate|].
    rewrite <- HasSuffix_spec. discriminate.
Defined.

(** ** Description of a match *)

(** C3: a name match is described as "possible <displayName> (name match)";
    any other match as "found <displayName> (<pluralized count>)", with
    ", low confidence" added inside the parentheses for a low-confidence
    match; but when the row noun is "key", such a match is described as
    "found <displayName>" alone.  The test for a name match comes first:
    the exception for "key" concerns the matches that are not name
    matches. *)
Theorem description_spec (m : ruleMatch.t) (rowStr : string) :
  (ruleMatch.MatchType m = "name" →
     description m rowStr
     = "possible " +:+ ruleMatch.DisplayName m +:+ " (name match)") ∧
  (ruleMatch.MatchType m ≠ "name" → rowStr = "key" →
     description m rowStr = "found " +:+ ruleMatch.DisplayName m) ∧
  (ruleMatch.MatchType m ≠ "name" → rowStr ≠ "key" →
   ruleMatch.Confidence m = "low" →
     description m rowStr
     = "found " +:+ ruleMatch.DisplayName m +:+ " ("
       +:+ (pluralize (ruleMatch.LineCount m) rowStr +:+ ", low confidence")
       +:+ ")") ∧
  (ruleMatch.MatchType m ≠ "name" → rowStr ≠ "key" →
   ruleMatch.Confidence m ≠ "low" →
     description m rowStr
     = "found " +:+ ruleMatch.DisplayName m +:+ " ("
       +:+ pluralize (ruleMatch.LineCount m) rowStr +:+ ")").
Proof.
  unfold description. repeat split.
  - intros ->. reflexivity.
  - intros Hn ->. apply String.eqb_neq in Hn. by rewrite Hn.
  - intros Hn Hk Hc. apply String.eqb_neq in Hn. apply String.eqb_neq in Hk.
    apply String.eqb_eq in Hc. by rewrite Hn, Hk, Hc.
  - intros Hn Hk Hc. apply String.eqb_neq in Hn. apply String.eqb_neq in Hk.
    apply String.eqb_neq in Hc. by rewrite Hn, Hk, Hc.
Qed.

Lemma description_spec_witness :
  description m_surname "key" = "possible last names (name match)" ∧
  description m_email "key" = "found emails" ∧
  description m_email "row" = "found emails (10 rows, low confidence)" ∧
  description m_ip "document" = "found IP addresses (1 document)".
Proof.
  split; [|split; [|split]].
  - apply (description_spec m_surname "key"). reflexivity.
  - apply (description_spec m_email "key"); [discriminate|reflexivity].
  - apply (description_spec m_email "row");
      [discriminate|discriminate|reflexivity].
  - apply (description_spec m_ip "document"); discriminate.
Defined.

(** ** Name rules *)

Lemma stringInSlice_spec a l : stringInSlice a l = true ↔ a ∈ l.
Proof.
  induction l as [|b l IH]; simpl.
  - split; [discriminate|]. by intros ?%elem_of_nil.
  - rewrite elem_of_cons. destruct (String.eqb_spec b a) as [->|Hne].
    + split; [by left|done].
    + rewrite IH. split; [by right|]. by intros [-> | ?].
Qed.

(** C10: [matchNameRule] returns the first rule of the list whose
    [ColumnNames] contain the name, and the zero value of [nameRule]
    (empty [Name], [DisplayName] and [ColumnNames]) when no rule does. *)
Theorem matchNameRule_spec (name : string) (rules : list nameRule.t) :
  (∀ before rule after,
     rules = before ++ rule :: after →
     Forall (λ r, name ∉ nameRule.ColumnNames r) before →
     name ∈ nameRule.ColumnNames rule →
     matchNameRule name rules = rule) ∧
  (Forall (λ r, name ∉ nameRule.ColumnNames r) rules →
     matchNameRule name rules = nameRule.mk "" "" []).
Proof.
  split.
  - intros before rule after -> Hbefore Hin.
    induction Hbefore as [|r before Hr Hbefore IH]; simpl.
    + apply stringInSlice_spec in Hin. by rewrite Hin.
    + rewrite <- stringInSlice_spec in Hr. apply not_true_is_false in Hr.
      by rewrite Hr.
  - induction 1 as [|r rules Hr Hrules IH]; simpl; [done|].
    rewrite <- stringInSlice_spec in Hr. apply not_true_is_false in Hr.
    by rewrite Hr.
Qed.

Lemma matchNameRule_spec_witness :
  matchNameRule "dob" nameRules
    = nameRule.mk "date_of_birth" "dates of birth" ["dateofbirth"; "birthday"; "dob"] ∧
  matchNameRule "email" nameRules = nameRule.mk "" "" [].
Proof.
  split.
  - apply (matchNameRule_spec "dob" nameRules) with
      (before := take 2 nameRules) (after := drop 3 nameRules);
      [reflexivity|by_decide..].
  - apply (matchNameRule_spec "email" nameRules). by_decide.
Defined.

(** ** [unique] keeps the first occurrences *)

Lemma filter_all_str (P : string → Prop) `{∀ x, Decision (P x)} (l : list string) :
  (∀ x, x ∈ l → P x) → filter P l = l.
Proof.
  induction l as [|x l IH]; intros Hall; [done|].
  rewrite filter_cons_True by (apply Hall; by left).
  f_equal. apply IH. intros y Hy. apply Hall. by right.
Qed.

Lemma elem_of_first_occurrences x l : x ∈ first_occurrences l ↔ x ∈ l.
Proof.
  induction l as [|y l IH]; [done|]. simpl.
  rewrite !elem_of_cons, list_elem_of_filter, IH.
  destruct (decide (x = y)) as [->|Hne]; [by split; left|].
  split; [intros [?|[_ ?]]|intros [?|?]]; try done; by right.
Qed.

Lemma NoDup_first_occurrences l : NoDup (first_occurrences l).
Proof.
  induction l as [|x l IH]; simpl; [constructor|].
  apply NoDup_cons. split; [|by apply NoDup_filter].
  rewrite list_elem_of_filter. by intros [? _].
Qed.

Lemma first_occurrences_NoDup l : NoDup l → first_occurrences l = l.
Proof.
  induction 1 as [|x l Hx Hl IH]; [done|]. simpl. rewrite IH. f_equal.
  apply filter_all_str. intros y Hy ->. done.
Qed.

Lemma unique_fold arr keys list :
  (∀ s, is_Some (keys !! s) ↔ s ∈ list) →
  (fold_left unique_step arr (keys, list)).2
  = list ++ filter (λ s, s ∉ list) (first_occurrences arr).
Proof.
  revert keys list. induction arr as [|x arr IH]; intros keys list Hkeys; simpl.
  - by rewrite app_nil_r.
  - destruct (keys !! x) as [b|] eqn:Hx.
    + assert (x ∈ list) as Hin by (apply Hkeys; eauto).
      rewrite (IH _ _ Hkeys), filter_cons_False by (by intros ?).
      rewrite list_filter_filter. f_equal. apply list_filter_iff.
      intros y. split; [by intros ?; split; [|intros ->]|by intros [? _]].
    + assert (x ∉ list) as Hnin.
      { intros Hin%Hkeys. rewrite Hx in Hin. by destruct Hin. }
      rewrite IH.
      * rewrite filter_cons_True by done. rewrite <- app_assoc. simpl.
        do 2 f_equal. rewrite list_filter_filter. apply list_filter_iff.
        intros y. rewrite elem_of_app, list_elem_of_singleton. tauto.
      * intros s. rewrite lookup_insert_is_Some, elem_of_app, list_elem_of_singleton.
        rewrite Hkeys. split.
        -- intros [->|[_ ?]]; [by right|by left].
        -- intros [? | ->]; [|by left].
           destruct (decide (x = s)); [by left|by right].
Qed.

(** [unique] returns the first occurrences of its argument, in order. *)
Lemma unique_first_occurrences arr : unique arr = first_occurrences arr.
Proof.
  unfold unique. rewrite unique_fold.
  - simpl. apply filter_all_str. intros s _. apply not_elem_of_nil.
  - intros s. rewrite lookup_empty, elem_of_nil. split; [by intros []|done].
Qed.

(** ** The values of a match *)

Lemma normalize_loop_spec n i v :
  (i + n)%nat = length v →
  normalize_loop n i v = take i v ++ (collapse_runs <$> drop i v).
Proof.
  revert i v. induction n as [|n IH]; intros i v Hlen; simpl.
  - rewrite take_ge, drop_ge by lia. by rewrite app_nil_r.
  - destruct (lookup_lt_is_Some_2 v i) as [x Hx]; [lia|]. rewrite Hx.
    rewrite IH by (rewrite length_insert; lia).
    rewrite drop_insert_lt by lia. rewrite (drop_S _ _ _ Hx).
    rewrite (take_S_r _ _ (ReplaceAllString space x " ")).
    + rewrite take_insert_ge by lia. rewrite <- app_assoc. simpl.
      by rewrite ReplaceAllString_space.
    + apply list_lookup_insert_eq. lia.
Qed.

Lemma sort_Strings_Sorted v : Sorted String.le (sort_Strings v).
Proof. apply (Sorted_merge_sort String.le). Qed.

Lemma sort_Strings_Permutation v : sort_Strings v ≡ₚ v.
Proof. apply (merge_sort_Permutation String.le). Qed.

Lemma sort_Strings_sorted v : Sorted String.le v → sort_Strings v = v.
Proof.
  intros Hv. apply (Sorted_unique String.le);
    [apply sort_Strings_Sorted|done|apply sort_Strings_Permutation].
Qed.

(** The slice [values] when the data are shown. *)
Lemma matchValues_true md :
  matchValues true md
  = Some (sort_Strings (collapse_runs <$> take 50 (first_occurrences md))).
Proof.
  unfold matchValues. rewrite unique_first_occurrences.
  set (u := first_occurrences md).
  destruct (0 <? length u)%nat eqn:Hpos.
  - assert ((if (50 <? length u)%nat then take 50 u else u) = take 50 u) as ->.
    { destruct (50 <? length u)%nat eqn:Hcap; [done|].
      apply Nat.ltb_ge in Hcap. by rewrite take_ge. }
    by rewrite normalize_loop_spec.
  - apply Nat.ltb_ge in Hpos. destruct u; [done|simpl in Hpos; lia].
Qed.

(** C1: when the data are shown, the values of a match are obtained from
    [MatchedData] by keeping the first occurrence of every string, then
    the first 50 of these, then collapsing the runs of whitespace of each,
    and last sorting them: the result is the sorted arrangement of the
    collapsed first 50 first occurrences.  With 51 or more different
    strings in [MatchedData] it has exactly 50 values. *)
Theorem matchValues_pipeline (md : list string) :
  ∃ vals,
    matchValues true md = Some vals ∧
    vals ≡ₚ collapse_runs <$> take 50 (first_occurrences md) ∧
    Sorted String.le vals ∧
    (∀ u, NoDup u → u ⊆ md → (51 ≤ length u)%nat → length vals = 50%nat).
Proof.
  exists (sort_Strings (collapse_runs <$> take 50 (first_occurrences md))).
  split; [apply matchValues_true|]. split; [apply sort_Strings_Permutation|].
  split; [apply sort_Strings_Sorted|]. intros u Hnd Hsub Hlen.
  rewrite sort_Strings_Permutation, length_fmap, length_take.
  assert (length u ≤ length (first_occurrences md))%nat; [|lia].
  apply submseteq_length, NoDup_submseteq; [done|].
  intros x Hx. apply elem_of_first_occurrences, Hsub, Hx.
Qed.

Lemma matchValues_pipeline_witness :
  ∃ vals, matchValues true sixty_values = Some vals ∧ length vals = 50%nat.
Proof.
  destruct (matchValues_pipeline sixty_values) as (vals & Hvals & _ & _ & Hlen).
  exists vals. split; [exact Hvals|].
  apply (Hlen sixty_values); [by_decide|done|vm_compute; lia].
Defined.

(** ** Idempotence of the aggregation *)

(** The list ["a  b"; "a b"] has no duplicate, its two strings collapse
    to "a b", and the aggregation of ["a b"; "a b"] is ["a b"]. *)
Lemma aggregation_not_idempotent :
  ¬ aggregation_idempotent_at ["a  b"; "a b"].
Proof.
  intros Hidem. specialize (Hidem ["a b"; "a b"] eq_refl). vm_compute in Hidem.
  discriminate Hidem.
Qed.

(** C6, amended: the aggregation is idempotent whenever the aggregated
    list has no two equal strings; applied to such a list, which is its
    own output, it returns it unchanged.  (Two different values can
    collapse to the same string after the duplicates have been removed;
    a second aggregation then drops one of them.) *)
Theorem aggregation_idempotent_NoDup (md vals : list string) :
  matchValues true md = Some vals →
  NoDup vals →
  matchValues true vals = Some vals.
Proof.
  rewrite !matchValues_true. intros [= Hvals] Hnd. f_equal.
  assert (Sorted String.le vals) as Hsorted
    by (rewrite <- Hvals; apply sort_Strings_Sorted).
  assert (vals ≡ₚ collapse_runs <$> take 50 (first_occurrences md)) as Hperm
    by (rewrite <- Hvals; apply sort_Strings_Permutation).
  rewrite first_occurrences_NoDup by done.
  rewrite take_ge by (rewrite Hperm, length_fmap, length_take; lia).
  assert (collapse_runs <$> vals = vals) as ->; [|by apply sort_Strings_sorted].
  rewrite <- (list_fmap_id vals) at 2. apply list_fmap_ext.
  intros i x Hx%list_elem_of_lookup_2. rewrite Hperm in Hx.
  apply list_elem_of_fmap in Hx as (y & -> & _). apply collapse_runs_idemp.
Qed.

Lemma aggregation_idempotent_NoDup_witness :
  matchValues true ["b"; "a   c"; "b"] = Some ["a c"; "b"] ∧
  matchValues true ["a c"; "b"] = Some ["a c"; "b"].
Proof.
  split; [reflexivity|].
  apply (aggregation_idempotent_NoDup ["b"; "a   c"; "b"] ["a c"; "b"]);
    [reflexivity|by_decide].
Defined.

(** ** Rendering *)

Lemma printMatch_app yellow mi out :
  printMatch yellow mi out = out ++ printMatch yellow mi [].
Proof.
  unfold printMatch, Println. destruct (matchInfo.Values mi) as [values|]; [|done].
  destruct (0 <? length values)%nat; simpl; by rewrite <- ?app_assoc.
Qed.

Lemma printMatchList_step_app yellow showData showAll rowStr out m :
  printMatchList_step yellow showData showAll rowStr out m
  = out ++ printMatchList_step yellow showData showAll rowStr [] m.
Proof.
  unfold printMatchList_step.
  destruct (showAll || negb (String.eqb (ruleMatch.Confidence m) "low"));
    [apply printMatch_app|by rewrite app_nil_r].
Qed.

Lemma match_lines_head yellow showData rowStr m :
  ∃ more, match_lines yellow showData rowStr m
          = descriptionLine yellow m rowStr :: more.
Proof.
  unfold match_lines, printMatch, Println. simpl.
  destruct (matchValues showData (ruleMatch.MatchedData m)) as [values|];
    [|by exists []].
  destruct (0 <? length values)%nat; simpl; eauto.
Qed.

(** C2: [printMatchList] writes, in the order of the list, the lines of
    the matches for which [showAll] is set or whose [Confidence] is not
    "low", and nothing for the other matches; the lines of a match begin
    with its description line.  So a match gets an output line if and
    only if [showAll] is true or its confidence is not low. *)
Theorem printMatchList_visibility yellow (matchList : list ruleMatch.t)
    (showData showAll : bool) (rowStr : string) (out : stdout) :
  printMatchList yellow matchList showData showAll rowStr out
  = out ++ concat ((λ m, if decide (showAll = true ∨ ruleMatch.Confidence m ≠ "low")
                         then match_lines yellow showData rowStr m else [])
                   <$> matchList)
  ∧ ∀ m, ∃ more, match_lines yellow showData rowStr m
                 = descriptionLine yellow m rowStr :: more.
Proof.
  split; [|intros m; apply match_lines_head].
  unfold printMatchList. revert out.
  induction matchList as [|m matchList IH]; intros out; simpl.
  - by rewrite app_nil_r.
  - rewrite IH, printMatchList_step_app, <- app_assoc. do 2 f_equal.
    unfold printMatchList_step, match_lines.
    destruct showAll, (String.eqb_spec (ruleMatch.Confidence m) "low");
      simpl; repeat case_decide; try done; exfalso; intuition congruence.
Qed.

(** ** The values under the description line *)

(** With the data shown, a name match, which has no values, gets a blank
    line after its description line. *)
Lemma blank_line_after_name_match :
  ¬ nothing_after_description yellow_plain true "row" m_surname.
Proof. intros Hnothing. specialize (Hnothing eq_refl). discriminate Hnothing. Qed.

(** C5, amended: when the data are shown, the description line of a
    rendered match is always followed by a blank line, and this blank
    line is preceded by the values, joined by commas on a line indented
    by four blanks, when there are values; a match without values gets
    the blank line alone.  When the data are not shown nothing follows
    the description line. *)
Theorem printMatch_values yellow (m : ruleMatch.t) (rowStr : string) :
  match_lines yellow false rowStr m = [descriptionLine yellow m rowStr] ∧
  (ruleMatch.MatchedData m = [] →
     match_lines yellow true rowStr m = [descriptionLine yellow m rowStr; nl]) ∧
  (ruleMatch.MatchedData m ≠ [] →
     ∃ vals, matchValues true (ruleMatch.MatchedData m) = Some vals ∧
       vals ≠ [] ∧
       match_lines yellow true rowStr m
       = [descriptionLine yellow m rowStr;
          "    " +:+ Go.Join vals ", " +:+ nl; nl]).
Proof.
  split; [done|]. split.
  - intros Hmd. unfold match_lines. by rewrite Hmd.
  - intros Hmd. pose proof (matchValues_true (ruleMatch.MatchedData m)) as Hvals.
    pose proof (sort_Strings_Permutation
                  (collapse_runs <$> take 50 (first_occurrences (ruleMatch.MatchedData m))))
      as Hperm.
    revert Hvals Hperm. generalize (sort_Strings
      (collapse_runs <$> take 50 (first_occurrences (ruleMatch.MatchedData m)))).
    intros vals Hvals Hperm. exists vals. split; [done|].
    assert (vals ≠ []) as Hne.
    { intros ->. apply Permutation_length in Hperm.
      destruct (ruleMatch.MatchedData m) as [|x md]; [done|]. discriminate Hperm. }
    split; [done|]. unfold match_lines, printMatch.
    cbn [matchInfo.Values matchInfo.ruleMatch_ matchInfo.Description].
    rewrite Hvals.
    destruct vals; [done|]. reflexivity.
Qed.

Lemma printMatch_values_witness :
  match_lines yellow_ansi true "row" m_surname
    = [descriptionLine yellow_ansi m_surname "row"; nl] ∧
  match_lines yellow_ansi true "row" m_email
    = [descriptionLine yellow_ansi m_email "row"; "    a@x.org, b@x.org" +:+ nl; nl].
Proof.
  split.
  - apply (printMatch_values yellow_ansi m_surname "row"). reflexivity.
  - destruct (printMatch_values yellow_ansi m_email "row") as (_ & _ & Hvals).
    destruct Hvals as (vals & Heq & _ & ->); [discriminate|].
    vm_compute in Heq. by injection Heq as <-.
Defined.

(** ** The summary of the low-confidence matches *)

Lemma lowConfidence_fold matchList acc :
  fold_left lowConfidence_step matchList acc
  = acc ++ filter (λ m, ruleMatch.Confidence m = "low") matchList.
Proof.
  revert acc. induction matchList as [|m matchList IH]; intros acc; simpl.
  - by rewrite app_nil_r.
  - rewrite IH. unfold lowConfidence_step.
    destruct (String.eqb_spec (ruleMatch.Confidence m) "low") as [Hlow|Hlow].
    + rewrite filter_cons_True by done. by rewrite <- app_assoc.
    + by rewrite filter_cons_False by done.
Qed.

(** C7: with [n] the number of matches whose confidence is "low",
    [showLowConfidenceMatchHelp] writes nothing when [n] is 0, that is
    when no match of the list has low confidence, and otherwise the one
    line "Also found n low confidence match(es). Use --show-all to view
    them", with "match" for [n = 1] and "matches" for any other [n]. *)
Theorem showLowConfidenceMatchHelp_spec (matchList : list ruleMatch.t)
    (out : stdout) :
  let n := length (filter (λ m, ruleMatch.Confidence m = "low") matchList) in
  showLowConfidenceMatchHelp matchList out
  = out ++
    (if decide (n = 0%nat) then []
     else ["Also found " +:+ Go.fmt_d (Z.of_nat n) +:+ " low confidence match"
           +:+ (if decide (n = 1%nat) then "" else "es")
           +:+ ". Use --show-all to view them" +:+ nl])
  ∧ (n ≠ 0%nat ↔ ∃ m, m ∈ matchList ∧ ruleMatch.Confidence m = "low").
Proof.
  intros n. split.
  - unfold showLowConfidenceMatchHelp. rewrite lowConfidence_fold. simpl.
    fold n. destruct n as [|[|n]]; simpl.
    + by rewrite app_nil_r.
    + reflexivity.
    + unfold Println, pluralize.
      assert ((Z.of_nat (S (S n)) =? 1) = false) as -> by (apply Z.eqb_neq; lia).
      simpl negb. cbv iota. 
      change (String.eqb "low confidence match" "index") with false.
      change (Go.HasSuffix "low confidence match" "ch") with true. cbv iota.
      by rewrite !app_assoc_str.
  - subst n. destruct (filter _ matchList) as [|m l] eqn:Hf.
    + split; [done|]. intros (m & Hm & Hlow).
      assert (m ∈ filter (λ m, ruleMatch.Confidence m = "low") matchList) as Hin
        by (by apply list_elem_of_filter).
      rewrite Hf in Hin. by apply elem_of_nil in Hin.
    + split; [|done]. intros _. exists m.
      assert (m ∈ filter (λ m, ruleMatch.Confidence m = "low") matchList) as Hin
        by (rewrite Hf; by left).
      apply list_elem_of_filter in Hin as [? ?]. done.
Qed.

(** ** The patterns of the [email] and [mac] rules *)

Section Run.
Context {A : Type}.
Implicit Types (k : cursor → option A) (cur : cursor).

Lemma run_Cat r1 r2 cur k :
  run (Cat r1 r2) cur k = run r1 cur (λ cur', run r2 cur' k).
Proof. reflexivity. Qed.

Lemma run_Eps cur k : run Eps cur k = k cur.
Proof. reflexivity. Qed.

Lemma run_Class_hit p c prev s k :
  p c = true → run (Class p) (prev, String c s) k = k (Some c, s).
Proof. intros Hc. simpl. by rewrite Hc. Qed.

Lemma run_Lit c prev s k : run (Lit c) (prev, String c s) k = k (Some c, s).
Proof. apply run_Class_hit, Ascii.eqb_refl. Qed.

Lemma run_WordBoundary_hit cur k :
  at_word_boundary cur = true → run WordBoundary cur k = k cur.
Proof. intros Hb. simpl. by rewrite Hb. Qed.

Lemma run_Alt_l r1 r2 cur k :
  is_Some (run r1 cur k) → is_Some (run (Alt r1 r2) cur k).
Proof. intros [a Ha]. simpl. by rewrite Ha. Qed.

Lemma run_Alt_r r1 r2 cur k :
  is_Some (run r2 cur k) → is_Some (run (Alt r1 r2) cur k).
Proof. intros Hr. simpl. by destruct (run r1 cur k). Qed.

(** A repetition may stop at once. *)
Lemma run_Star_skip r cur k : is_Some (k cur) → is_Some (run (Star r) cur k).
Proof.
  intros Hk. simpl. destruct (String.length cur.2); simpl; [done|].
  by destruct (run r cur _).
Qed.

(** A repetition of a class can stop after any number of bytes of the
    class. *)
Lemma run_star_class_stop p fuel l prev rest k :
  (String.length (l +:+ rest) ≤ fuel)%nat →
  all_chars p l = true →
  is_Some (k (last_byte prev l, rest)) →
  is_Some (run_star (run (Class p)) fuel (prev, l +:+ rest) k).
Proof.
  set (body := run (A:=A) (Class p)).
  assert (∀ cur k, body cur k =
            match cur.2 with
            | String c rest => if p c then k (Some c, rest) else None
            | EmptyString => None
            end) as Hbody by done.
  clearbody body.
  revert fuel prev. induction l as [|c l IH]; intros fuel prev Hfuel Hl Hk.
  - rewrite app_empty_l. destruct fuel; simpl; [done|].
    by destruct (body _ _).
  - rewrite app_String in *. simpl in Hfuel, Hl, Hk.
    apply andb_true_iff in Hl as [Hc Hl].
    destruct fuel as [|fuel]; [lia|]. simpl. rewrite Hbody. simpl. rewrite Hc.
    assert ((String.length (l +:+ rest) <? S (String.length (l +:+ rest)))%nat
            = true) as -> by (apply Nat.ltb_lt; lia).
    destruct (IH fuel (Some c)) as [a ->]; [lia|done..].
Qed.

Lemma run_Plus_class p c l prev rest k :
  all_chars p (String c l) = true →
  is_Some (k (last_byte prev (String c l), rest)) →
  is_Some (run (Plus (Class p)) (prev, String c l +:+ rest) k).
Proof.
  intros Hl Hk. simpl in Hl. apply andb_true_iff in Hl as [Hc Hl].
  unfold Plus. rewrite run_Cat, app_String, run_Class_hit by done.
  apply (run_star_class_stop p); [done|done|exact Hk].
Qed.
End Run.

Lemma last_byte_class p prev c l :
  all_chars p (String c l) = true →
  ∃ d, last_byte prev (String c l) = Some d ∧ p d = true.
Proof.
  revert prev c. induction l as [|c' l IH]; intros prev c Hl.
  - exists c. simpl in Hl. by apply andb_true_iff in Hl as [-> _].
  - simpl in Hl. apply andb_true_iff in Hl as [_ Hl]. apply (IH (Some c) c' Hl).
Qed.

Lemma is_hex_word c : is_hex c = true → is_word c = true.
Proof. by destruct c as [[] [] [] [] [] [] [] []]. Qed.

Lemma is_lower_word c : is_lower c = true → is_word c = true.
Proof. by destruct c as [[] [] [] [] [] [] [] []]. Qed.

Lemma search_match_at r prev s :
  is_Some (match_at r (prev, s)) → search r prev s = true.
Proof. intros [cur Hcur]. destruct s; simpl; by rewrite Hcur. Qed.

Lemma word_boundary_start c s : is_word c = true → at_word_boundary (None, String c s) = true.
Proof. intros Hc. unfold at_word_boundary, word_before, word_after. simpl. by rewrite Hc. Qed.

Lemma word_boundary_end c : is_word c = true → at_word_boundary (Some c, "") = true.
Proof. intros Hc. unfold at_word_boundary, word_before, word_after. simpl. by rewrite Hc. Qed.

Ltac run_step :=
  cbv beta;
  first [ rewrite run_Cat | rewrite run_Eps | rewrite run_Lit
        | rewrite run_Class_hit by done ].

Lemma email_pattern_matches sep c local domain tld :
  sep = "@" ∨ sep = "%40" →
  is_word c = true →
  local ≠ "" → all_chars is_local local = true →
  domain ≠ "" → all_chars is_domain domain = true →
  tld ≠ "" → all_chars is_lower tld = true →
  MatchString emailRegex (String c local +:+ sep +:+ domain +:+ "." +:+ tld) = true.
Proof.
  intros Hsep Hc Hlocal Hlocal' Hdomain Hdomain' Htld Htld'.
  destruct local as [|l0 local]; [done|]. destruct domain as [|d0 domain]; [done|].
  destruct tld as [|t0 tld]; [done|].
  apply search_match_at. unfold match_at, emailRegex, Seq. cbn [foldr].
  rewrite run_Cat, run_WordBoundary_hit by (by apply word_boundary_start).
  rewrite (app_String c). do 2 run_step. run_step. apply run_Plus_class; [done|].
  run_step.
  destruct Hsep as [-> | ->].
  - apply run_Alt_l. rewrite app_String, app_empty_l. run_step.
    run_step. apply run_Plus_class; [done|]. run_step. apply run_Star_skip.
    rewrite app_String, app_empty_l. do 3 run_step.
    rewrite <- (app_empty_r (String t0 tld)). apply run_Plus_class; [done|].
    destruct (last_byte_class is_lower (Some "."%char) t0 tld Htld') as (d & -> & Hd).
    run_step. rewrite run_WordBoundary_hit by (by apply word_boundary_end, is_lower_word).
    by run_step.
  - apply run_Alt_r. cbn [Str]. rewrite !app_String, !app_empty_l. do 7 run_step.
    run_step. apply run_Plus_class; [done|]. run_step. apply run_Star_skip.
    do 3 run_step.
    rewrite <- (app_empty_r (String t0 tld)). apply run_Plus_class; [done|].
    destruct (last_byte_class is_lower (Some "."%char) t0 tld Htld') as (d & -> & Hd).
    run_step. rewrite run_WordBoundary_hit by (by apply word_boundary_end, is_lower_word).
    by run_step.
Qed.

Lemma mac_pattern_matches sep octets :
  sep = ":" ∨ sep = "%3A" →
  length octets = 6%nat →
  Forall (λ o, is_hex o.1 = true ∧ is_hex o.2 = true) octets →
  MatchString macRegex (join_octets sep octets) = true.
Proof.
  intros Hsep Hlen Hhex.
  destruct octets as [|[a1 b1] [|[a2 b2] [|[a3 b3] [|[a4 b4] [|[a5 b5]
    [|[a6 b6] [|? ?]]]]]]]; try discriminate Hlen.
  repeat match goal with
         | H : Forall _ (_ :: _) |- _ => apply Forall_cons in H as [[? ?] H]
         end.
  simpl in *.
  apply search_match_at. unfold match_at, macRegex, Seq.
  cbn [foldr Repeat join_octets].
  rewrite run_Cat, run_WordBoundary_hit by (by apply word_boundary_start, is_hex_word).
  destruct Hsep as [-> | ->].
  - repeat first [ run_step | rewrite app_String | rewrite app_empty_l
                 | apply run_Alt_l ].
    rewrite run_WordBoundary_hit by (by apply word_boundary_end, is_hex_word).
    by run_step.
  - cbn [Str].
    repeat first [ run_step | rewrite app_String | rewrite app_empty_l
                 | apply run_Alt_r ].
    rewrite run_WordBoundary_hit by (by apply word_boundary_end, is_hex_word).
    by run_step.
Qed.

(** C8: the pattern of the [email] rule matches an address whose "@" is
    written "%40", such as "user%40example.com", and the pattern of the
    [mac] rule matches six groups of two hexadecimal digits separated by
    "%3A"; both match the texts with "@" and ":" as well. *)
Theorem url_encoded_delimiters :
  MatchString (regexRule.Regex emailRule) "user%40example.com" = true ∧
  (∀ sep c local domain tld,
     sep = "@" ∨ sep = "%40" →
     is_word c = true →
     local ≠ "" → all_chars is_local local = true →
     domain ≠ "" → all_chars is_domain domain = true →
     tld ≠ "" → all_chars is_lower tld = true →
     MatchString (regexRule.Regex emailRule)
       (String c local +:+ sep +:+ domain +:+ "." +:+ tld) = true) ∧
  (∀ sep octets,
     sep = ":" ∨ sep = "%3A" →
     length octets = 6%nat →
     Forall (λ o, is_hex o.1 = true ∧ is_hex o.2 = true) octets →
     MatchString (regexRule.Regex macRule) (join_octets sep octets) = true).
Proof.
  split; [reflexivity|]. split.
  - apply email_pattern_matches.
  - apply mac_pattern_matches.
Qed.

Lemma url_encoded_delimiters_witness :
  MatchString emailRegex "jo.doe+tag%40mail-7" = false ∧
  MatchString emailRegex "jo.doe+tag%40mail-7.org" = true ∧
  MatchString macRegex "00%3A1b%3A44%3A11%3A3A%3AB7" = true.
Proof.
  destruct url_encoded_delimiters as (_ & Hemail & Hmac).
  split; [reflexivity|]. split.
  - apply (Hemail "%40" "j"%char "o.doe+tag" "mail-7" "org");
      first [by right | reflexivity | discriminate].
  - apply (Hmac "%3A"
             [("0", "0"); ("1", "b"); ("4", "4"); ("1", "1"); ("3", "A"); ("B", "7")]%char);
      [by right|reflexivity|by_decide].
Defined.

(** ** Slices and the memory *)

Section Memory.
Implicit Types (h : gmap Mem.loc (list string)) (s v : Mem.slice).

Lemma valid_len_0 h s : Mem.valid h s → Mem.cap s = 0%nat → Mem.elems h s = [].
Proof. intros [Hlen _] Hcap. unfold Mem.elems. by replace (Mem.len s) with 0%nat by lia. Qed.

Lemma valid_array h s :
  Mem.valid h s → (0 < Mem.cap s)%nat →
  ∃ a, h !! Mem.ptr s = Some a ∧ (Mem.off s + Mem.cap s ≤ length a)%nat ∧ (Mem.len s ≤ Mem.cap s)%nat.
Proof. intros [Hlen [Hcap|(a & Ha & Hbound)]] Hpos; [lia|eauto]. Qed.

Lemma length_elems h s : Mem.valid h s → length (Mem.elems h s) = Mem.len s.
Proof.
  intros Hs. destruct (decide (Mem.cap s = 0%nat)) as [Hcap|Hcap].
  - rewrite valid_len_0 by done. destruct Hs as [Hlen _]. simpl. lia.
  - destruct (valid_array h s Hs) as (a & Ha & Hbound & Hlen); [lia|].
    unfold Mem.elems, Mem.array. rewrite Ha. simpl. rewrite length_take, length_drop. lia.
Qed.

Lemma lookup_elems h s i :
  Mem.valid h s → (i < Mem.len s)%nat → Mem.elems h s !! i = Some (Mem.index h s i).
Proof.
  intros Hs Hi. destruct (valid_array h s Hs) as (a & Ha & Hbound & Hlen);
    [destruct Hs; lia|].
  unfold Mem.elems, Mem.index, Mem.array. rewrite Ha. simpl.
  rewrite lookup_take_lt, lookup_drop by done.
  destruct (lookup_lt_is_Some_2 a (Mem.off s + i)) as [x ->]; [lia|done].
Qed.

Lemma elems_seq h s : Mem.valid h s → Mem.elems h s = Mem.index h s <$> seq 0 (Mem.len s).
Proof.
  intros Hs. apply list_eq. intros i. rewrite list_lookup_fmap.
  destruct (decide (i < Mem.len s)%nat) as [Hi|Hi].
  - rewrite lookup_elems, lookup_seq_lt by done. done.
  - rewrite lookup_seq_ge by lia. simpl. apply lookup_ge_None.
    rewrite length_elems by done. lia.
Qed.

(** What holds of a slice in a memory holds in every larger memory. *)
Lemma valid_weaken h h' s : h ⊆ h' → Mem.valid h s → Mem.valid h' s.
Proof.
  intros Hsub [Hlen [Hcap|(a & Ha & Hbound)]]; split; [done|by left|done|].
  right. exists a. split; [|done]. by eapply lookup_weaken.
Qed.

Lemma elems_weaken h h' s : h ⊆ h' → Mem.valid h s → Mem.elems h' s = Mem.elems h s.
Proof.
  intros Hsub Hs. destruct (decide (Mem.cap s = 0%nat)) as [Hcap|Hcap].
  - rewrite !valid_len_0; eauto using valid_weaken.
  - destruct (valid_array h s Hs) as (a & Ha & _); [lia|].
    unfold Mem.elems, Mem.array. by rewrite Ha, (lookup_weaken _ _ _ _ Ha Hsub).
Qed.

Lemma index_weaken h h' s i :
  h ⊆ h' → Mem.valid h s → (i < Mem.len s)%nat → Mem.index h' s i = Mem.index h s i.
Proof.
  intros Hsub Hs Hi.
  assert (Some (Mem.index h' s i) = Some (Mem.index h s i)) as [= ->]; [|done].
  rewrite <- !lookup_elems by eauto using valid_weaken.
  by rewrite (elems_weaken h h').
Qed.

(** Writing into an array that [h0] does not have leaves [h0] included. *)
Lemma alter_frame h0 h (f : list string → list string) l :
  h0 ⊆ h → l ∉ dom h0 → h0 ⊆ alter f l h.
Proof.
  intros Hsub Hl. apply map_subseteq_spec. intros i a Hi.
  rewrite lookup_alter_ne; [by eapply lookup_weaken|].
  intros <-. apply Hl, elem_of_dom. eauto.
Qed.

Lemma fresh_for_ptr h0 s : Mem.fresh_for h0 s → (0 < Mem.cap s)%nat → Mem.ptr s ∉ dom h0.
Proof. intros [Hcap|Hptr] Hpos; [lia|done]. Qed.

Lemma store_spec h s i x :
  Mem.valid h s → (i < Mem.len s)%nat →
  Mem.valid (Mem.store s i x h) s ∧ Mem.elems (Mem.store s i x h) s = <[i := x]> (Mem.elems h s).
Proof.
  intros Hs Hi. destruct (valid_array h s Hs) as (a & Ha & Hbound & Hlen);
    [destruct Hs; lia|].
  assert (Mem.store s i x h !! Mem.ptr s = Some (<[(Mem.off s + i)%nat := x]> a)) as Hstore.
  { unfold Mem.store. by rewrite lookup_alter_eq, Ha. }
  split.
  - split; [done|]. right. eexists. split; [done|]. by rewrite length_insert.
  - unfold Mem.elems, Mem.array. rewrite Hstore, Ha. simpl.
    rewrite drop_insert_ge by lia. rewrite take_insert_lt by lia.
    by replace (Mem.off s + i - Mem.off s)%nat with i by lia.
Qed.

Lemma sort_Strings_spec h v :
  Mem.valid h v →
  Mem.valid (Mem.sort_Strings v h) v ∧
  Mem.elems (Mem.sort_Strings v h) v = sort_Strings (Mem.elems h v).
Proof.
  intros Hv. destruct (decide (Mem.cap v = 0%nat)) as [Hcap|Hcap].
  - assert (h !! Mem.ptr v = None ∨ ∃ a, h !! Mem.ptr v = Some a) as [Hnone|[a Ha]]
      by (destruct (h !! Mem.ptr v); eauto).
    + assert (Mem.sort_Strings v h = h) as ->.
      { apply map_eq. intros l. unfold Mem.sort_Strings.
        rewrite lookup_alter. case_decide; [subst; by rewrite Hnone|done]. }
      split; [done|]. by rewrite valid_len_0.
    + split; [destruct Hv; split; [done|by left]|].
      rewrite (valid_len_0 h) by done.
      destruct Hv as [Hlen _]. unfold Mem.elems. by replace (Mem.len v) with 0%nat by lia.
  - destruct (valid_array h v Hv) as (a & Ha & Hbound & Hlen); [lia|].
    set (sorted := sort_Strings (take (Mem.len v) (drop (Mem.off v) a))).
    assert (length sorted = Mem.len v) as Hsorted.
    { unfold sorted. rewrite sort_Strings_Permutation, length_take, length_drop. lia. }
    assert (Mem.sort_Strings v h !! Mem.ptr v
            = Some (take (Mem.off v) a ++ sorted ++ drop (Mem.off v + Mem.len v) a)) as Hnew.
    { unfold Mem.sort_Strings. by rewrite lookup_alter_eq, Ha. }
    split.
    + split; [done|]. right. eexists. split; [done|].
      rewrite !length_app, length_take, length_drop. lia.
    + unfold Mem.elems at 1. unfold Mem.array. rewrite Hnew. simpl.
      rewrite drop_app_length' by (rewrite length_take; lia).
      rewrite take_app_length' by done.
      unfold sorted, Mem.elems, Mem.array. by rewrite Ha.
Qed.

Lemma reslice_spec h v n :
  Mem.valid h v → (n ≤ Mem.len v)%nat →
  Mem.valid h (Mem.reslice v n) ∧ Mem.elems h (Mem.reslice v n) = take n (Mem.elems h v).
Proof.
  intros [Hlen Harr] Hn. split; [split; [simpl; lia|done]|].
  unfold Mem.elems. simpl. rewrite take_take. by replace (n `min` Mem.len v)%nat with n by lia.
Qed.

End Memory.

(** ** The functions on the memory compute what the functions on lists
    compute, and write into new arrays only *)

Section MemoryFunctions.
Variable growslice : nat → nat.
Hypothesis growslice_gt : ∀ c, (c < growslice c)%nat.
Implicit Types (h : gmap Mem.loc (list string)) (s v : Mem.slice).

Lemma append_spec h0 h s x :
  h0 ⊆ h → Mem.valid h s → Mem.fresh_for h0 s →
  ∃ s' h', Mem.append growslice s x h = (s', h') ∧
    h0 ⊆ h' ∧ Mem.valid h' s' ∧ Mem.fresh_for h0 s' ∧
    Mem.elems h' s' = Mem.elems h s ++ [x].
Proof.
  intros Hsub Hs Hfresh. unfold Mem.append.
  destruct (Mem.len s <? Mem.cap s)%nat eqn:Hroom.
  - apply Nat.ltb_lt in Hroom.
    destruct (valid_array h s Hs) as (a & Ha & Hbound & Hlen); [lia|].
    eexists _, _. split; [done|].
    assert (Mem.store s (Mem.len s) x h !! Mem.ptr s
            = Some (<[(Mem.off s + Mem.len s)%nat := x]> a)) as Hstore.
    { unfold Mem.store. by rewrite lookup_alter_eq, Ha. }
    split; [apply alter_frame; [done|apply fresh_for_ptr; [done|lia]]|].
    split; [split; [simpl; lia|right; eexists; split; [done|]];
            rewrite length_insert; simpl; lia|].
    split; [done|]. unfold Mem.elems, Mem.array. simpl. rewrite Hstore, Ha. simpl.
    rewrite drop_insert_ge by lia.
    replace (Mem.off s + Mem.len s - Mem.off s)%nat with (Mem.len s) by lia.
    rewrite (take_S_r _ _ x)
      by (apply list_lookup_insert_eq; rewrite length_drop; lia).
    by rewrite take_insert_ge by lia.
  - apply Nat.ltb_ge in Hroom.
    set (l := fresh ({[Mem.zerobase]} ∪ dom h)).
    assert (l ∉ dom h) as Hl.
    { pose proof (is_fresh ({[Mem.zerobase]} ∪ dom h)) as Hf. fold l in Hf.
      intros Hin. apply Hf, elem_of_union. by right. }
    pose proof (growslice_gt (Mem.cap s)) as Hgrow.
    pose proof (length_elems h s Hs) as Helems. destruct Hs as [Hlen _].
    eexists _, _. split; [done|].
    split; [apply insert_subseteq_r; [|done];
            apply not_elem_of_dom; intros Hin; apply Hl;
            by eapply (subseteq_dom h0 h)|].
    split.
    { split; [simpl; lia|]. right. eexists. split; [apply lookup_insert_eq|].
      simpl. rewrite length_app. simpl. rewrite length_replicate. lia. }
    split; [right; simpl; intros Hin; apply Hl; by eapply (subseteq_dom h0 h)|].
    unfold Mem.elems at 1. unfold Mem.array. simpl. rewrite lookup_insert_eq. simpl.
    rewrite (cons_middle x), app_assoc.
    apply take_app_length'. rewrite length_app. simpl. lia.
Qed.

Lemma unique_fold_mem h0 arr indices keys list h :
  Mem.valid h0 arr →
  Forall (λ i, (i < Mem.len arr)%nat) indices →
  h0 ⊆ h → Mem.valid h list → Mem.fresh_for h0 list →
  ∃ keys' list' h',
    fold_left (Mem.unique_step growslice arr) indices (keys, list, h)
      = (keys', list', h') ∧
    h0 ⊆ h' ∧ Mem.valid h' list' ∧ Mem.fresh_for h0 list' ∧
    (keys', Mem.elems h' list')
      = fold_left unique_step (Mem.index h0 arr <$> indices)
          (keys, Mem.elems h list).
Proof.
  intros Harr Hindices. revert keys list h.
  induction Hindices as [|i indices Hi _ IH]; intros keys list h Hsub Hlist Hfresh.
  - by eexists _, _, _.
  - simpl. rewrite (index_weaken h0 h) by done.
    destruct (keys !! Mem.index h0 arr i) eqn:Hkey; [by apply IH|].
    destruct (append_spec h0 h list (Mem.index h0 arr i))
      as (list1 & h1 & -> & Hsub1 & Hlist1 & Hfresh1 & Helems1); [done..|].
    rewrite <- Helems1. by apply IH.
Qed.

Lemma unique_spec h arr :
  Mem.valid h arr →
  ∃ v h', Mem.unique growslice arr h = (v, h') ∧
    h ⊆ h' ∧ Mem.valid h' v ∧ Mem.fresh_for h v ∧
    Mem.elems h' v = unique (Mem.elems h arr).
Proof.
  intros Harr. unfold Mem.unique, unique.
  destruct (unique_fold_mem h arr (seq 0 (Mem.len arr)) ∅ Mem.empty h)
    as (keys' & v & h' & -> & Hsub & Hv & Hfresh & Hpure);
    [done| |done|by split; [|left]|by left|].
  - apply Forall_forall. intros i Hi%elem_of_seq. lia.
  - exists v, h'. split; [done|]. do 3 (split; [done|]).
    rewrite (elems_seq h arr) by done.
    change (Mem.elems h Mem.empty) with (@nil string) in Hpure.
    by rewrite <- Hpure.
Qed.

Lemma normalize_loop_mem n i v h :
  Mem.valid h v → (i + n ≤ Mem.len v)%nat →
  Mem.valid (Mem.normalize_loop n i v h) v ∧
  Mem.elems (Mem.normalize_loop n i v h) v = normalize_loop n i (Mem.elems h v).
Proof.
  revert i h. induction n as [|n IH]; intros i h Hv Hn; [done|]. simpl.
  rewrite lookup_elems by (done || lia).
  destruct (store_spec h v i (ReplaceAllString space (Mem.index h v i) " "))
    as [Hv1 Helems1]; [done|lia|].
  rewrite <- Helems1. apply IH; [done|lia].
Qed.

Lemma normalize_loop_frame h0 n i v h :
  h0 ⊆ h → Mem.ptr v ∉ dom h0 → h0 ⊆ Mem.normalize_loop n i v h.
Proof.
  revert i h. induction n as [|n IH]; intros i h Hsub Hptr; [done|]. simpl.
  apply IH; [|done]. by apply alter_frame.
Qed.

Lemma matchValues_spec showData h md :
  Mem.valid h md →
  ∃ values h', Mem.matchValues growslice showData md h = (values, h') ∧
    h ⊆ h' ∧
    Mem.elems h' <$> values = matchValues showData (Mem.elems h md) ∧
    ∀ v, values = Some v → Mem.valid h' v ∧ Mem.fresh_for h v.
Proof.
  intros Hmd. unfold Mem.matchValues, matchValues.
  destruct showData; [|by eexists _, _].
  destruct (unique_spec h md Hmd) as (v & h1 & -> & Hsub & Hv & Hfresh & <-).
  rewrite (length_elems h1 v Hv).
  destruct (0 <? Mem.len v)%nat eqn:Hpos;
    [|eexists _, _; do 3 (split; [done|]); by intros ? [= <-]].
  apply Nat.ltb_lt in Hpos.
  set (v' := if (50 <? Mem.len v)%nat then Mem.reslice v 50 else v).
  assert (Mem.valid h1 v' ∧
          Mem.elems h1 v'
          = (if (50 <? Mem.len v)%nat then take 50 (Mem.elems h1 v)
             else Mem.elems h1 v) ∧
          Mem.ptr v' = Mem.ptr v ∧ (0 < Mem.len v')%nat ∧
          Mem.cap v' = Mem.cap v) as (Hv' & Helems' & Hptr' & Hpos' & Hcap').
  { unfold v'. destruct (50 <? Mem.len v)%nat eqn:Hcap; [|done].
    apply Nat.ltb_lt in Hcap.
    destruct (reslice_spec h1 v 50 Hv) as [? ?]; [lia|].
    do 2 (split; [done|]). simpl. split; [done|]. split; [lia|done]. }
  assert (Mem.ptr v' ∉ dom h) as Hnew.
  { rewrite Hptr'. apply fresh_for_ptr; [done|]. destruct Hv'. lia. }
  destruct (normalize_loop_mem (Mem.len v') 0 v' h1) as [Hv2 Helems2]; [done|lia|].
  destruct (sort_Strings_spec _ v' Hv2) as [Hv3 Helems3].
  eexists _, _. split; [done|].
  split; [apply alter_frame; [by apply normalize_loop_frame|done]|].
  split.
  - simpl. rewrite Helems3, Helems2, <- Helems'. do 3 f_equal.
    by rewrite length_elems.
  - intros ? [= <-]. split; [done|]. right. done.
Qed.

Lemma printMatch_mem yellow h0 h (m : ruleMatch.rep Mem.slice) desc values out :
  (∀ v, values = Some v → Mem.valid h v) →
  Mem.printMatch yellow (matchInfo.mk m desc values) h out
  = printMatch yellow
      (matchInfo.mk (Mem.contents h0 m) desc (Mem.elems h <$> values)) out.
Proof.
  intros Hvalid. unfold Mem.printMatch, printMatch. simpl.
  destruct values as [v|]; simpl; [|done].
  by rewrite length_elems by (by apply Hvalid).
Qed.

Lemma description_contents h (m : ruleMatch.rep Mem.slice) rowStr :
  description (Mem.contents h m) rowStr = description m rowStr.
Proof. reflexivity. Qed.

Lemma printMatchList_mem yellow h0 matchList showData showAll rowStr out h :
  Forall (λ m, Mem.valid h0 (ruleMatch.MatchedData m)) matchList →
  h0 ⊆ h →
  ∃ out' h',
    Mem.printMatchList growslice yellow matchList showData showAll rowStr (out, h)
      = (out', h') ∧
    h ⊆ h' ∧
    out' = printMatchList yellow (Mem.contents h0 <$> matchList)
             showData showAll rowStr out.
Proof.
  intros HmatchList. revert out h.
  induction HmatchList as [|m matchList Hm _ IH]; intros out h Hsub.
  - by eexists _, _.
  - unfold Mem.printMatchList, printMatchList. simpl.
    unfold printMatchList_step at 2. simpl.
    destruct (showAll || negb (String.eqb (ruleMatch.Confidence m) "low"));
      [|by apply IH].
    destruct (matchValues_spec showData h (ruleMatch.MatchedData m))
      as (values & h1 & -> & Hsub1 & Hvalues & Hfresh);
      [by eapply valid_weaken|].
    rewrite (elems_weaken h0 h) in Hvalues by done.
    rewrite (printMatch_mem yellow h0) by (intros v Hv; by apply Hfresh).
    rewrite Hvalues, description_contents.
    destruct (IH (printMatch yellow
                    (matchInfo.mk (Mem.contents h0 m) (description m rowStr)
                       (matchValues showData
                          (Mem.elems h0 (ruleMatch.MatchedData m)))) out) h1)
      as (out' & h' & Hrun & Hsub' & Hout); [by etrans|].
    exists out', h'. split; [exact Hrun|]. split; [by etrans|done].
Qed.

End MemoryFunctions.

(** C9: rendering does not write into its matches.  The matches are
    handed over by value, the only memory that they share with the
    caller is the backing array of [MatchedData].  For matches whose
    data are valid slices of the memory [h], [printMatchList] ends in a
    memory that holds every array of [h] with the elements it had, so
    the [MatchedData] of every match have the elements they had, and it
    writes what the function on lists writes.  The slice of values that
    [matchValues] builds from a slice in any memory views no array of
    that memory (or has no capacity): it lies in an array allocated by
    the call, apart from [MatchedData], and holds the deduplicated,
    capped, normalised and sorted values. *)
Theorem rendering_frame (growslice : nat → nat) (yellow : string → string)
    (matchList : list (ruleMatch.rep Mem.slice)) (showData showAll : bool)
    (rowStr : string) (out : stdout) (h : gmap Mem.loc (list string)) :
  (∀ c, (c < growslice c)%nat) →
  Forall (λ m, Mem.valid h (ruleMatch.MatchedData m)) matchList →
  (∃ out' h',
     Mem.printMatchList growslice yellow matchList showData showAll rowStr (out, h)
       = (out', h') ∧
     h ⊆ h' ∧
     Forall (λ m, Mem.elems h' (ruleMatch.MatchedData m)
                  = Mem.elems h (ruleMatch.MatchedData m)) matchList ∧
     out' = printMatchList yellow (Mem.contents h <$> matchList)
              showData showAll rowStr out) ∧
  (∀ h1 md, Mem.valid h1 md →
     ∃ values h2,
       Mem.matchValues growslice showData md h1 = (values, h2) ∧
       h1 ⊆ h2 ∧
       Mem.elems h2 md = Mem.elems h1 md ∧
       Mem.elems h2 <$> values = matchValues showData (Mem.elems h1 md) ∧
       ∀ v, values = Some v → Mem.fresh_for h1 v).
Proof.
  intros Hgrow Hvalid. split.
  - destruct (printMatchList_mem growslice Hgrow yellow h matchList
                showData showAll rowStr out h Hvalid)
      as (out' & h' & Hrun & Hsub & Hout); [done|].
    exists out', h'. do 2 (split; [done|]). split; [|done].
    eapply Forall_impl; [exact Hvalid|]. intros m Hm. by apply elems_weaken.
  - intros h1 md Hmd.
    destruct (matchValues_spec growslice Hgrow showData h1 md Hmd)
      as (values & h2 & Hrun & Hsub & Hvalues & Hfresh).
    exists values, h2. do 2 (split; [done|]).
    split; [by apply elems_weaken|]. split; [done|].
    intros v Hv. by apply Hfresh.
Qed.

Lemma rendering_frame_witness :
  ∃ out' h',
    Mem.printMatchList Mem.double yellow_ansi [Mem.m1; Mem.m2] true true "row"
      ([], Mem.h0) = (out', h') ∧
    h' !! 5%positive = Some ["b  c"; "a"; "b  c"; "d"] ∧
    out' = printMatchList yellow_ansi
             [ruleMatch.mk "email" "emails" "high" "t.a" ["b  c"; "a"; "b  c"] "value" 3;
              ruleMatch.mk "email" "emails" "low" "t.b" ["a"; "b  c"; "d"] "value" 3]
             true true "row" [].
Proof.
  destruct (rendering_frame Mem.double yellow_ansi [Mem.m1; Mem.m2] true true
              "row" [] Mem.h0) as [(out' & h' & Hrun & Hsub & _ & Hout) _].
  - intros c. unfold Mem.double. lia.
  - assert (∀ s, (Mem.len s ≤ Mem.cap s)%nat → Mem.ptr s = 5%positive →
                 (Mem.off s + Mem.cap s ≤ 4)%nat → Mem.valid Mem.h0 s) as Hvalid.
    { intros s Hlen Hptr Hbound. split; [done|]. right. rewrite Hptr.
      eexists. split; [reflexivity|exact Hbound]. }
    apply Forall_cons. split; [apply Hvalid; simpl; (lia || done)|].
    apply Forall_cons. split; [apply Hvalid; simpl; (lia || done)|].
    apply Forall_nil_2.
  - exists out', h'. split; [exact Hrun|]. split; [|exact Hout].
    eapply lookup_weaken; [|exact Hsub]. reflexivity.
Defined.

(** * Further properties of the code *)

(** ** [unique] *)

Lemma first_occurrences_sublist l : first_occurrences l `sublist_of` l.
Proof.
  induction l as [|x l IH]; simpl; [constructor|].
  apply sublist_skip. etrans; [apply sublist_filter|exact IH].
Qed.

Lemma length_first_occurrences l : (length (first_occurrences l) ≤ length l)%nat.
Proof. apply sublist_length, first_occurrences_sublist. Qed.

(** X1: [unique] returns every string of its argument once: the result
    has no two equal elements and has the elements of the argument; it
    is the argument with elements left out, so it is not longer. *)
Theorem unique_distinct (arr : list string) :
  NoDup (unique arr) ∧
  (∀ x, x ∈ unique arr ↔ x ∈ arr) ∧
  unique arr `sublist_of` arr.
Proof.
  rewrite unique_first_occurrences. split; [apply NoDup_first_occurrences|].
  split; [intros x; apply elem_of_first_occurrences|].
  apply first_occurrences_sublist.
Qed.

(** X2: the strings come in the order in which they are first seen: the
    result for [l1 ++ l2] is the result for [l1] followed by the strings
    of the result for [l2] that do not occur in [l1]. *)
Theorem unique_app (l1 l2 : list string) :
  unique (l1 ++ l2) = unique l1 ++ filter (λ x, x ∉ l1) (unique l2).
Proof.
  rewrite !unique_first_occurrences.
  induction l1 as [|x l1 IH]; simpl.
  - symmetry. apply filter_all_str. intros y _. apply not_elem_of_nil.
  - f_equal. rewrite IH, filter_app, list_filter_filter. f_equal.
    apply list_filter_iff. intros y. rewrite not_elem_of_cons. tauto.
Qed.

(** X3: [unique] gives back a list without duplicates as it is. *)
Theorem unique_NoDup (arr : list string) : NoDup arr → unique arr = arr.
Proof. rewrite unique_first_occurrences. apply first_occurrences_NoDup. Qed.

Lemma unique_NoDup_witness : unique ["b"; "a"; "c"] = ["b"; "a"; "c"].
Proof. apply (unique_NoDup ["b"; "a"; "c"]). by_decide. Defined.

(** X4: [unique] is idempotent. *)
Theorem unique_idempotent (arr : list string) : unique (unique arr) = unique arr.
Proof.
  rewrite !unique_first_occurrences.
  apply first_occurrences_NoDup, NoDup_first_occurrences.
Qed.

(** ** Whitespace normalisation *)

Lemma single_blanks_collapse b s : single_blanks b (collapse_from b s) = true.
Proof.
  revert b. induction s as [|c s IH]; intros b; [done|]. simpl.
  destruct (is_space c) eqn:Hc.
  - destruct b; [apply IH|]. simpl. apply IH.
  - simpl. rewrite Hc. apply IH.
Qed.

Lemma collapse_single_blanks b s :
  single_blanks b s = true → collapse_from b s = s.
Proof.
  revert b. induction s as [|c s IH]; intros b Hs; [done|]. simpl in *.
  destruct (is_space c) eqn:Hc.
  - apply andb_true_iff in Hs as [Hs Hs']. apply andb_true_iff in Hs as [Hblank Hb].
    apply Ascii.eqb_eq in Hblank as ->. destruct b; [done|]. by rewrite IH.
  - by rewrite IH.
Qed.

Lemma length_collapse_from b s :
  (String.length (collapse_from b s) ≤ String.length s)%nat.
Proof.
  revert b. induction s as [|c s IH]; intros b; [done|]. simpl.
  destruct (is_space c); [destruct b|]; simpl;
    [pose proof (IH true)|pose proof (IH true)|pose proof (IH false)]; lia.
Qed.

(** X5: replacing the matches of [space] by a blank yields a text whose
    only whitespace is single blanks, never a longer text, and changes
    nothing in a text that is already so; hence replacing twice is
    replacing once. *)
Theorem ReplaceAllString_space_normalises (s : string) :
  normalised (ReplaceAllString space s " ") = true ∧
  (String.length (ReplaceAllString space s " ") ≤ String.length s)%nat ∧
  (ReplaceAllString space s " " = s ↔ normalised s = true) ∧
  ReplaceAllString space (ReplaceAllString space s " ") " "
  = ReplaceAllString space s " ".
Proof.
  rewrite !ReplaceAllString_space. unfold normalised, collapse_runs.
  split; [apply single_blanks_collapse|]. split; [apply length_collapse_from|].
  split; [|apply collapse_from_idemp]. split.
  - intros <-. apply single_blanks_collapse.
  - apply collapse_single_blanks.
Qed.

(** ** The values of a match *)

(** X6: the number of values is the number of different strings of
    [MatchedData], but 50 at most; so there are never more than 50
    values, and never more values than matched strings. *)
Theorem matchValues_length (md : list string) :
  ∃ vals, matchValues true md = Some vals ∧
    length vals = (length (unique md) `min` 50)%nat ∧
    (length vals ≤ 50)%nat ∧ (length vals ≤ length md)%nat.
Proof.
  eexists. split; [apply matchValues_true|].
  rewrite sort_Strings_Permutation, length_fmap, length_take,
    unique_first_occurrences.
  pose proof (length_first_occurrences md). lia.
Qed.

(** X7: every value is a matched string with its whitespace replaced,
    so its only whitespace is single blanks; and as long as there are no
    more than 50 different matched strings, each of them gives a value. *)
Theorem matchValues_elements (md : list string) :
  ∃ vals, matchValues true md = Some vals ∧
    (∀ x, x ∈ vals →
       normalised x = true ∧ ∃ y, y ∈ md ∧ x = ReplaceAllString space y " ") ∧
    ((length (unique md) ≤ 50)%nat →
       ∀ y, y ∈ md → ReplaceAllString space y " " ∈ vals).
Proof.
  eexists. split; [apply matchValues_true|]. split.
  - intros x. rewrite sort_Strings_Permutation.
    intros (y & -> & Hy%elem_of_take)%list_elem_of_fmap.
    destruct Hy as (i & Hy%list_elem_of_lookup_2 & _).
    rewrite elem_of_first_occurrences in Hy.
    split; [apply single_blanks_collapse|].
    exists y. split; [exact Hy|]. by rewrite ReplaceAllString_space.
  - rewrite unique_first_occurrences. intros Hcap y Hy.
    rewrite sort_Strings_Permutation, take_ge, ReplaceAllString_space by done.
    by apply list_elem_of_fmap_2, elem_of_first_occurrences.
Qed.

Lemma matchValues_elements_witness :
  ∃ vals, matchValues true ["x  y"; "z"; "x  y"] = Some vals ∧ "x y" ∈ vals.
Proof.
  destruct (matchValues_elements ["x  y"; "z"; "x  y"]) as (vals & Hvals & _ & Hall).
  exists vals. split; [exact Hvals|].
  apply (Hall ltac:(vm_compute; lia) "x  y"). by_decide.
Defined.

(** X8: as long as there are no more than 50 different matched strings,
    the values do not depend on the order of [MatchedData]. *)
Theorem matchValues_Permutation (md md' : list string) :
  md ≡ₚ md' →
  (length (unique md) ≤ 50)%nat →
  matchValues true md = matchValues true md'.
Proof.
  intros Hperm Hcap. rewrite !matchValues_true. f_equal.
  rewrite unique_first_occurrences in Hcap.
  assert (first_occurrences md ≡ₚ first_occurrences md') as Hfirst.
  { apply NoDup_Permutation; [apply NoDup_first_occurrences..|].
    intros x. by rewrite !elem_of_first_occurrences, Hperm. }
  rewrite !take_ge by (rewrite <- ?Hfirst; done).
  apply (Sorted_unique String.le); [apply sort_Strings_Sorted..|].
  by rewrite !sort_Strings_Permutation, Hfirst.
Qed.

Lemma matchValues_Permutation_witness :
  matchValues true ["b"; "a"; "b"; "c"] = matchValues true ["c"; "b"; "b"; "a"].
Proof.
  apply (matchValues_Permutation ["b"; "a"; "b"; "c"] ["c"; "b"; "b"; "a"]).
  - by_decide.
  - vm_compute. lia.
Defined.

Lemma matchValues_fixed (vals : list string) :
  NoDup vals → (length vals ≤ 50)%nat → Sorted String.le vals →
  Forall (λ x, normalised x = true) vals →
  matchValues true vals = Some vals.
Proof.
  intros Hnd Hlen Hsorted Hnorm. rewrite matchValues_true. f_equal.
  rewrite first_occurrences_NoDup, take_ge by done.
  assert (collapse_runs <$> vals = vals) as ->; [|by apply sort_Strings_sorted].
  rewrite <- (list_fmap_id vals) at 2. apply list_fmap_ext.
  intros i x Hx%list_elem_of_lookup_2.
  apply collapse_single_blanks. by eapply (proj1 (Forall_forall _ _) Hnorm).
Qed.

(** X9: the aggregation settles after two rounds: the values of the
    values of a list of matched strings are their own values. *)
Theorem matchValues_settles (md v1 v2 : list string) :
  matchValues true md = Some v1 →
  matchValues true v1 = Some v2 →
  matchValues true v2 = Some v2.
Proof.
  rewrite !matchValues_true. intros [= Hv1] [= Hv2].
  assert (Forall (λ x, normalised x = true) v1) as Hnorm1.
  { apply Forall_forall. intros x. rewrite <- Hv1, sort_Strings_Permutation.
    intros (y & -> & _)%list_elem_of_fmap. apply single_blanks_collapse. }
  assert (length v1 ≤ 50)%nat as Hlen1
    by (rewrite <- Hv1, sort_Strings_Permutation, length_fmap, length_take; lia).
  assert (v2 ≡ₚ first_occurrences v1) as Hperm.
  { rewrite <- Hv2, sort_Strings_Permutation.
    rewrite take_ge by (etrans; [apply length_first_occurrences|exact Hlen1]).
    assert (collapse_runs <$> first_occurrences v1 = first_occurrences v1)
      as ->; [|done].
    rewrite <- (list_fmap_id (first_occurrences v1)) at 2.
    apply list_fmap_ext. intros i x Hx%list_elem_of_lookup_2.
    rewrite elem_of_first_occurrences in Hx. apply collapse_single_blanks.
    by eapply (proj1 (Forall_forall _ _) Hnorm1). }
  rewrite <- matchValues_true. apply matchValues_fixed.
  - rewrite Hperm. apply NoDup_first_occurrences.
  - rewrite Hperm. etrans; [apply length_first_occurrences|exact Hlen1].
  - rewrite <- Hv2. apply sort_Strings_Sorted.
  - apply Forall_forall. intros x. rewrite Hperm, elem_of_first_occurrences.
    by eapply (proj1 (Forall_forall _ _) Hnorm1).
Qed.

Lemma matchValues_settles_witness :
  matchValues true ["a b"] = Some ["a b"].
Proof.
  apply (matchValues_settles ["a  b"; "a b"] ["a b"; "a b"] ["a b"]);
    reflexivity.
Defined.

(** ** Rendering *)

Lemma all_chars_app p s t :
  all_chars p (s +:+ t) = all_chars p s && all_chars p t.
Proof.
  induction s as [|c s IH]; [done|]. rewrite app_String. simpl.
  by rewrite IH, andb_assoc.
Qed.





Lemma elem_of_concat {A} (x : A) (ls : list (list A)) :
  x ∈ concat ls → ∃ l, x ∈ l ∧ l ∈ ls.
Proof.
  induction ls as [|l ls IH]; simpl; [by intros ?%elem_of_nil|].
  intros [Hx|Hx]%elem_of_app.
  - exists l. split; [done|by left].
  - destruct (IH Hx) as (l' & ? & ?). exists l'. split; [done|by right].
Qed.

Lemma printMatchList_flat yellow matchList showData showAll rowStr out :
  printMatchList yellow matchList showData showAll rowStr out
  = out ++ concat ((printMatchList_step yellow showData showAll rowStr [])
                   <$> matchList).
Proof.
  unfold printMatchList. revert out.
  induction matchList as [|m matchList IH]; intros out; simpl.
  - by rewrite app_nil_r.
  - by rewrite IH, printMatchList_step_app, <- app_assoc.
Qed.

Lemma printMatchList_step_rendered yellow showData showAll rowStr m :
  printMatchList_step yellow showData showAll rowStr [] m
  = if decide (rendered showAll m)
    then match_lines yellow showData rowStr m else [].
Proof.
  unfold printMatchList_step, match_lines, rendered.
  destruct showAll, (String.eqb_spec (ruleMatch.Confidence m) "low");
    simpl; repeat case_decide; try done; exfalso; intuition congruence.
Qed.

(** X11: when the data are not shown, [printMatchList] adds to the
    output the description lines of the rendered matches, one chunk for
    each in the order of the list, and nothing else. *)
Theorem printMatchList_descriptions yellow (matchList : list ruleMatch.t)
    (showAll : bool) (rowStr : string) (out : stdout) :
  printMatchList yellow matchList false showAll rowStr out
  = out ++ ((λ m, descriptionLine yellow m rowStr)
            <$> filter (rendered showAll) matchList).
Proof.
  rewrite printMatchList_flat. f_equal.
  induction matchList as [|m matchList IH]; [done|].
  rewrite fmap_cons, filter_cons. simpl concat.
  rewrite IH, printMatchList_step_rendered. by case_decide.
Qed.

(** X12: every chunk that [printMatchList] writes ends with a line
    feed: the output is made of whole lines. *)
Theorem printMatchList_whole_lines yellow (matchList : list ruleMatch.t)
    (showData showAll : bool) (rowStr : string) (chunk : string) :
  chunk ∈ printMatchList yellow matchList showData showAll rowStr [] →
  ∃ line, chunk = line +:+ nl.
Proof.
  rewrite printMatchList_flat. simpl.
  intros (lines & Hchunk & (m & -> & _)%list_elem_of_fmap)%elem_of_concat.
  rewrite printMatchList_step_rendered in Hchunk.
  case_decide; [|by apply elem_of_nil in Hchunk].
  unfold match_lines, printMatch, Println in Hchunk. simpl in Hchunk.
  destruct (matchValues showData (ruleMatch.MatchedData m)) as [values|];
    [destruct (0 <? length values)%nat|]; simpl in Hchunk;
    repeat (apply elem_of_cons in Hchunk as [-> | Hchunk];
            [rewrite <- ?app_assoc_str; eauto|]);
    by apply elem_of_nil in Hchunk.
Qed.

Lemma printMatchList_whole_lines_witness :
  ∃ line, "    a@x.org, b@x.org" +:+ nl = line +:+ nl.
Proof.
  apply (printMatchList_whole_lines yellow_plain [m_surname; m_email] true true "row").
  by_decide.
Defined.

(** ** The summary and the suppressed matches *)

Lemma showLowConfidenceMatchHelp_filter matchList out :
  showLowConfidenceMatchHelp matchList out
  = let n := length (filter (λ m, ruleMatch.Confidence m = "low") matchList) in
    if (0 <? n)%nat then
      Println ("Also found " +:+ pluralize (Z.of_nat n) "low confidence match"
               +:+ ". Use --show-all to view them") out
    else out.
Proof. unfold showLowConfidenceMatchHelp. by rewrite lowConfidence_fold. Qed.

(** X13: [showLowConfidenceMatchHelp] looks at nothing but the number of
    matches with low confidence: lists with as many of them give the
    same output, whatever their order and their other matches. *)
Theorem showLowConfidenceMatchHelp_count (matchList matchList' : list ruleMatch.t)
    (out : stdout) :
  length (filter (λ m, ruleMatch.Confidence m = "low") matchList)
  = length (filter (λ m, ruleMatch.Confidence m = "low") matchList') →
  showLowConfidenceMatchHelp matchList out
  = showLowConfidenceMatchHelp matchList' out.
Proof. intros Hcount. by rewrite !showLowConfidenceMatchHelp_filter, Hcount. Qed.

Lemma showLowConfidenceMatchHelp_count_witness :
  showLowConfidenceMatchHelp [m_surname; m_email; m_ip] []
  = showLowConfidenceMatchHelp [m_email] [].
Proof.
  apply (showLowConfidenceMatchHelp_count [m_surname; m_email; m_ip] [m_email]).
  reflexivity.
Defined.

Lemma match_lines_length yellow showData rowStr m :
  (0 < length (match_lines yellow showData rowStr m))%nat.
Proof. destruct (match_lines_head yellow showData rowStr m) as [more ->]. simpl. lia. Qed.

Lemma suppressed_lines yellow showData rowStr (matchList : list ruleMatch.t) :
  let lines showAll :=
    concat (printMatchList_step yellow showData showAll rowStr [] <$> matchList) in
  (Forall (λ m, ruleMatch.Confidence m ≠ "low") matchList →
     lines false = lines true) ∧
  (length (lines false) ≤ length (lines true))%nat ∧
  (Exists (λ m, ruleMatch.Confidence m = "low") matchList →
     (length (lines false) < length (lines true))%nat).
Proof.
  cbv zeta. induction matchList as [|m matchList (IHsame & IHle & IHlt)].
  - split; [done|]. split; [done|]. by intros ?%Exists_nil.
  - rewrite !fmap_cons. cbn [concat].
    rewrite !length_app, !printMatchList_step_rendered.
    pose proof (match_lines_length yellow showData rowStr m) as Hpos.
    rewrite (decide_True (P := rendered true m)) by (by left).
    destruct (decide (rendered false m)) as [Hm|Hm].
    + destruct Hm as [?|Hm]; [done|]. split; [|split; [lia|]].
      * intros [_ ?]%Forall_cons. by rewrite IHsame.
      * intros [?|?]%Exists_cons; [done|]. apply IHlt in H. lia.
    + split; [|simpl; split; lia].
      intros [Hhigh _]%Forall_cons. exfalso. apply Hm. by right.
Qed.

(** X14: the summary line is written exactly when [printMatchList]
    without [showAll] has left out a match, that is when its output
    differs from the output with [showAll]. *)
Theorem summary_iff_suppressed yellow (matchList : list ruleMatch.t)
    (showData : bool) (rowStr : string) (out out' : stdout) :
  showLowConfidenceMatchHelp matchList out' ≠ out' ↔
  printMatchList yellow matchList showData false rowStr out
  ≠ printMatchList yellow matchList showData true rowStr out.
Proof.
  destruct (suppressed_lines yellow showData rowStr matchList)
    as (Hsame & _ & Hlt).
  rewrite !printMatchList_flat, showLowConfidenceMatchHelp_filter. cbv zeta.
  destruct (decide (Exists (λ m, ruleMatch.Confidence m = "low") matchList))
    as [Hlow|Hlow].
  - assert (0 < length (filter (λ m, ruleMatch.Confidence m = "low") matchList))%nat
      as Hcount.
    { apply Exists_exists in Hlow as (m & Hm & Hlow).
      assert (m ∈ filter (λ m, ruleMatch.Confidence m = "low") matchList) as Hin
        by (by apply list_elem_of_filter).
      destruct (filter _ matchList); [by apply elem_of_nil in Hin|simpl; lia]. }
    apply Nat.ltb_lt in Hcount. rewrite Hcount. split.
    + intros _ Heq%(f_equal length). rewrite !length_app in Heq.
      specialize (Hlt Hlow). lia.
    + intros _ Heq%(f_equal length). unfold Println in Heq.
      rewrite length_app in Heq. simpl in Heq. lia.
  - apply not_Exists_Forall in Hlow; [|intros m; apply _].
    assert (filter (λ m, ruleMatch.Confidence m = "low") matchList = []) as ->.
    { apply elem_of_nil_inv. intros m [Hm Hin]%list_elem_of_filter.
      by eapply (proj1 (Forall_forall _ _) Hlow). }
    simpl. rewrite Hsame by done. split; intros Hne; by destruct Hne.
Qed.

(** ** The matcher finds what the patterns match *)

Lemma last_byte_app prev g1 g2 :
  last_byte prev (g1 +:+ g2) = last_byte (last_byte prev g1) g2.
Proof.
  revert prev. induction g1 as [|c g1 IH]; intros prev; [done|].
  rewrite app_String. simpl. apply IH.
Qed.

(** A match goes forward in the text. *)
Lemma Matches_advance r c1 c2 :
  Matches r c1 c2 → ∃ g, c1.2 = g +:+ c2.2 ∧ c2.1 = last_byte c1.1 g.
Proof.
  induction 1 as [cur|p prev c rest Hc|r1 r2 c1 c2 c3 _ (g1 & Hg1 & Hp1) _ (g2 & Hg2 & Hp2)
                 |r1 r2 c1 c2 _ IH|r1 r2 c1 c2 _ IH|r cur
                 |r c1 c2 c3 _ (g1 & Hg1 & Hp1) _ (g2 & Hg2 & Hp2)|cur Hb];
    try (by exists ""); try done.
  - by exists (String c "").
  - exists (g1 +:+ g2). by rewrite Hg1, Hg2, Hp2, Hp1, app_assoc_str, last_byte_app.
  - exists (g1 +:+ g2). by rewrite Hg1, Hg2, Hp2, Hp1, app_assoc_str, last_byte_app.
Qed.

Lemma Matches_length r c1 c2 :
  Matches r c1 c2 →
  (String.length c2.2 ≤ String.length c1.2)%nat ∧
  (String.length c2.2 = String.length c1.2 → c2 = c1).
Proof.
  intros (g & Hg & Hprev)%Matches_advance. rewrite Hg, length_app_str.
  split; [lia|]. intros Hlen. destruct g; [|simpl in Hlen; lia].
  destruct c1, c2. simpl in *. by subst.
Qed.

Lemma run_star_sound {A} r fuel :
  (∀ cur (k : cursor → option A) a,
     run r cur k = Some a → ∃ cur', Matches r cur cur' ∧ k cur' = Some a) →
  ∀ cur (k : cursor → option A) a,
    run_star (run r) fuel cur k = Some a →
    ∃ cur', Matches (Star r) cur cur' ∧ k cur' = Some a.
Proof.
  intros Hbody. induction fuel as [|fuel IH]; intros cur k a; simpl.
  - intros Hk. exists cur. split; [constructor|done].
  - destruct (run r cur _) as [a'|] eqn:Hrun.
    + intros [= ->]. apply Hbody in Hrun as (c2 & Hc2 & Hk).
      destruct (String.length c2.2 <? String.length cur.2)%nat; [|done].
      apply IH in Hk as (c3 & Hc3 & Hk). exists c3.
      split; [by econstructor|done].
    + intros Hk. exists cur. split; [constructor|done].
Qed.

(** What [run] finds is a match. *)
Lemma run_sound {A} r cur (k : cursor → option A) a :
  run r cur k = Some a → ∃ cur', Matches r cur cur' ∧ k cur' = Some a.
Proof.
  revert cur k a. induction r as [|p|r1 IH1 r2 IH2|r1 IH1 r2 IH2|r IH|];
    intros cur k a.
  - intros Hk. exists cur. split; [constructor|done].
  - destruct cur as [prev [|c rest]]; simpl; [done|].
    destruct (p c) eqn:Hc; [|done]. intros Hk. eexists. split; [by constructor|done].
  - intros (c2 & Hc2 & (c3 & Hc3 & Hk)%IH2)%IH1. exists c3.
    split; [by econstructor|done].
  - simpl. destruct (run r1 cur k) as [a'|] eqn:Hrun.
    + intros [= ->]. apply IH1 in Hrun as (c2 & Hc2 & Hk). exists c2.
      split; [by apply Matches_Alt_l|done].
    + intros (c2 & Hc2 & Hk)%IH2. exists c2. split; [by apply Matches_Alt_r|done].
  - apply (run_star_sound r _ IH).
  - simpl. destruct (at_word_boundary cur) eqn:Hb; [|done].
    intros Hk. exists cur. split; [by constructor|done].
Qed.

(** Every match is found by [run], when what follows accepts it. *)
Lemma run_complete r c1 c2 :
  Matches r c1 c2 →
  (∀ A (k : cursor → option A), is_Some (k c2) → is_Some (run r c1 k)) ∧
  (∀ r', r = Star r' → ∀ A (k : cursor → option A) fuel,
     (String.length c1.2 ≤ fuel)%nat →
     is_Some (k c2) → is_Some (run_star (run r') fuel c1 k)).
Proof.
  induction 1 as [cur|p prev c rest Hc|r1 r2 c1 c2 c3 _ [IH1 _] _ [IH2 _]
                 |r1 r2 c1 c2 _ [IH _]|r1 r2 c1 c2 _ [IH _]|r cur
                 |r c1 c2 c3 H12 [IH1 _] _ [_ IH2]|cur Hb].
  - split; [|done]. intros A k Hk. done.
  - split; [|done]. intros A k Hk. simpl. by rewrite Hc.
  - split; [|done]. intros A k Hk. rewrite run_Cat. by apply IH1, IH2.
  - split; [|done]. intros A k Hk. by apply run_Alt_l, IH.
  - split; [|done]. intros A k Hk. by apply run_Alt_r, IH.
  - split; [intros A k Hk; by apply run_Star_skip|].
    intros r' [= <-] A k fuel _ Hk. destruct fuel; simpl; [done|].
    by destruct (run r cur _).
  - assert (∀ A (k : cursor → option A) fuel,
              (String.length c1.2 ≤ fuel)%nat →
              is_Some (k c3) → is_Some (run_star (run r) fuel c1 k)) as Hstar.
    { intros A k fuel Hfuel Hk.
      destruct (Matches_length _ _ _ H12) as [Hle Hsame].
      destruct (decide (String.length c2.2 = String.length c1.2)) as [Heq|Hne].
      - rewrite <- (Hsame Heq). apply (IH2 r eq_refl); [lia|done].
      - destruct fuel as [|fuel]; [lia|]. simpl.
        destruct (IH1 A (λ cur',
                    if (String.length cur'.2 <? String.length c1.2)%nat
                    then run_star (run r) fuel cur' k else None)) as [a ->];
          [|done].
        assert ((String.length c2.2 <? String.length c1.2)%nat = true) as ->
          by (apply Nat.ltb_lt; lia).
        apply (IH2 r eq_refl); [lia|done]. }
    split; [intros A k Hk; by apply Hstar|].
    intros r' [= <-]. apply Hstar.
  - split; [|done]. intros A k Hk. simpl. by rewrite Hb.
Qed.

Lemma search_Matches r prev s :
  search r prev s = true ↔
  ∃ pre rest cur', s = pre +:+ rest ∧ Matches r (last_byte prev pre, rest) cur'.
Proof.
  split.
  - revert prev. induction s as [|c s IH]; intros prev; simpl.
    + destruct (match_at r (prev, "")) as [cur'|] eqn:Hrun; [|done]. intros _.
      apply run_sound in Hrun as (c2 & Hc2 & _). by exists "", "", c2.
    + destruct (match_at r (prev, String c s)) as [cur'|] eqn:Hrun.
      * intros _. apply run_sound in Hrun as (c2 & Hc2 & _).
        by exists "", (String c s), c2.
      * intros (pre & rest & c2 & -> & Hc2)%IH. by exists (String c pre), rest, c2.
  - intros (pre & rest & c2 & -> & Hc2). revert prev Hc2.
    induction pre as [|c pre IH]; intros prev Hc2.
    + apply search_match_at. by apply (run_complete _ _ _ Hc2).
    + rewrite app_String. simpl.
      destruct (match_at r (prev, String c (pre +:+ rest))); [done|].
      by apply IH.
Qed.

(** [MatchString] tells whether the pattern matches somewhere in the
    text. *)
Lemma MatchString_Matches r s :
  MatchString r s = true ↔
  ∃ pre rest cur', s = pre +:+ rest ∧ Matches r (last_byte None pre, rest) cur'.
Proof. apply search_Matches. Qed.

(** What the pieces of the patterns match. *)
Lemma Matches_Eps_iff c1 c2 : Matches Eps c1 c2 ↔ c2 = c1.
Proof. split; [by inversion 1|intros ->; constructor]. Qed.

Lemma Matches_Cat_iff r1 r2 c1 c3 :
  Matches (Cat r1 r2) c1 c3 ↔ ∃ c2, Matches r1 c1 c2 ∧ Matches r2 c2 c3.
Proof.
  split; [inversion 1; eauto|]. intros (c2 & ? & ?). by econstructor.
Qed.

Lemma Matches_Alt_iff r1 r2 c1 c2 :
  Matches (Alt r1 r2) c1 c2 ↔ Matches r1 c1 c2 ∨ Matches r2 c1 c2.
Proof.
  split; [inversion 1; eauto|].
  intros [?|?]; [by apply Matches_Alt_l|by apply Matches_Alt_r].
Qed.

Lemma Matches_Opt_iff r c1 c2 : Matches (Opt r) c1 c2 ↔ Matches r c1 c2 ∨ c2 = c1.
Proof. unfold Opt. by rewrite Matches_Alt_iff, Matches_Eps_iff. Qed.

Lemma Matches_WordBoundary_iff c1 c2 :
  Matches WordBoundary c1 c2 ↔ c2 = c1 ∧ at_word_boundary c1 = true.
Proof. split; [by inversion 1|intros [-> ?]; by constructor]. Qed.

Lemma Matches_Class_iff p prev text c2 :
  Matches (Class p) (prev, text) c2 ↔
  ∃ c rest, text = String c rest ∧ p c = true ∧ c2 = (Some c, rest).
Proof.
  split; [inversion 1; eauto|]. intros (c & rest & -> & Hc & ->). by constructor.
Qed.

Lemma Matches_Lit_iff c prev text c2 :
  Matches (Lit c) (prev, text) c2 ↔
  ∃ rest, text = String c rest ∧ c2 = (Some c, rest).
Proof.
  unfold Lit. rewrite Matches_Class_iff. split.
  - intros (c' & rest & -> & <-%Ascii.eqb_eq & ->). eauto.
  - intros (rest & -> & ->). exists c, rest. by rewrite Ascii.eqb_refl.
Qed.

Lemma Matches_Str_iff lit prev text c2 :
  Matches (Str lit) (prev, text) c2 ↔
  ∃ rest, text = lit +:+ rest ∧ c2 = (last_byte prev lit, rest).
Proof.
  revert prev text. induction lit as [|c lit IH]; intros prev text; simpl.
  - rewrite Matches_Eps_iff. split; [intros ->; eauto|by intros (rest & -> & ->)].
  - rewrite Matches_Cat_iff. split.
    + intros ([p t] & (rest & -> & [= -> ->])%Matches_Lit_iff
                    & (rest' & -> & ->)%IH). eauto.
    + intros (rest & -> & ->). exists (Some c, lit +:+ rest).
      split; [apply Matches_Lit_iff|apply IH]; eauto.
Qed.

Lemma Matches_Repeat_iff p n prev text c2 :
  Matches (Repeat n (Class p)) (prev, text) c2 ↔
  ∃ g rest, text = g +:+ rest ∧ String.length g = n ∧ all_chars p g = true ∧
            c2 = (last_byte prev g, rest).
Proof.
  revert prev text. induction n as [|n IH]; intros prev text; simpl.
  - rewrite Matches_Eps_iff. split; [intros ->; by exists "", text|].
    intros ([|] & rest & -> & Hlen & _ & ->); [done|discriminate Hlen].
  - rewrite Matches_Cat_iff. split.
    + intros ([q t] & (c & rest & -> & Hc & [= -> ->])%Matches_Class_iff
                    & (g & rest' & -> & <- & Hg & ->)%IH).
      exists (String c g), rest'. simpl. by rewrite Hc, Hg.
    + intros ([|c g] & rest & -> & [= <-] & Hg & ->). simpl in Hg.
      apply andb_true_iff in Hg as [Hc Hg]. exists (Some c, g +:+ rest).
      split; [apply Matches_Class_iff|apply IH]; eauto 10.
Qed.

Lemma Matches_OptChain_iff p n prev text c2 :
  Matches (OptChain n (Class p)) (prev, text) c2 ↔
  ∃ g rest, text = g +:+ rest ∧ (String.length g ≤ n)%nat ∧
            all_chars p g = true ∧ c2 = (last_byte prev g, rest).
Proof.
  revert prev text. induction n as [|n IH]; intros prev text; simpl.
  - rewrite Matches_Eps_iff. split; [intros ->; by exists "", text|].
    intros ([|] & rest & -> & Hlen & _ & ->); [done|simpl in Hlen; lia].
  - rewrite Matches_Opt_iff, Matches_Cat_iff. split.
    + intros [([q t] & (c & rest & -> & Hc & [= -> ->])%Matches_Class_iff
                     & (g & rest' & -> & Hlen & Hg & ->)%IH)| ->].
      * exists (String c g), rest'. simpl. rewrite Hc, Hg. split; [done|].
        split; [lia|done].
      * exists "", text. split; [done|]. split; [simpl; lia|done].
    + intros ([|c g] & rest & -> & Hlen & Hg & ->); [by right|left].
      simpl in Hg, Hlen. apply andb_true_iff in Hg as [Hc Hg].
      exists (Some c, g +:+ rest).
      split; [apply Matches_Class_iff|apply IH]; eauto 10 with lia.
Qed.

Lemma length_substring_prefix g m :
  (m ≤ String.length g)%nat → String.length (substring 0 m g) = m.
Proof.
  revert m. induction g as [|c g IH]; intros [|m] Hm; simpl in *; try done; try lia.
  f_equal. apply IH. lia.
Qed.

Lemma Matches_RepeatRange_iff p m n prev text c2 :
  (m ≤ n)%nat →
  Matches (RepeatRange m n (Class p)) (prev, text) c2 ↔
  ∃ g rest, text = g +:+ rest ∧ (m ≤ String.length g ≤ n)%nat ∧
            all_chars p g = true ∧ c2 = (last_byte prev g, rest).
Proof.
  intros Hmn. unfold RepeatRange. rewrite Matches_Cat_iff. split.
  - intros ([q t] & (g1 & rest1 & -> & Hlen1 & Hg1 & [= -> ->])%Matches_Repeat_iff
                  & (g2 & rest2 & -> & Hlen2 & Hg2 & ->)%Matches_OptChain_iff).
    exists (g1 +:+ g2), rest2.
    rewrite app_assoc_str, length_app_str, all_chars_app, last_byte_app, Hg1, Hg2.
    split; [done|]. split; [lia|done].
  - intros (g & rest & -> & Hlen & Hg & ->).
    pose proof (substring_split g m ltac:(lia)) as Hsplit.
    set (g1 := substring 0 m g) in *.
    set (g2 := substring m (String.length g - m) g) in *.
    assert (String.length g1 = m ∧ String.length g2 = (String.length g - m)%nat)
      as [Hlen1 Hlen2].
    { assert (String.length g1 = m) by (apply length_substring_prefix; lia).
      split; [done|]. apply (f_equal String.length) in Hsplit.
      rewrite length_app_str in Hsplit. lia. }
    rewrite Hsplit, all_chars_app in Hg. apply andb_true_iff in Hg as [Hg1 Hg2].
    exists (last_byte prev g1, g2 +:+ rest). split.
    + apply Matches_Repeat_iff. exists g1, (g2 +:+ rest).
      by rewrite Hsplit, app_assoc_str.
    + apply Matches_OptChain_iff. exists g2, rest.
      replace (last_byte prev g) with (last_byte (last_byte prev g1) g2)
        by (by rewrite <- last_byte_app, <- Hsplit).
      split; [done|]. split; [lia|done].
Qed.

Lemma is_digit_word c : is_digit c = true → is_word c = true.
Proof. unfold is_word. by intros ->. Qed.

Lemma boundary_before_word prev c text :
  is_word c = true →
  at_word_boundary (prev, String c text) = true ↔ word_before (prev, "") = false.
Proof.
  intros Hc. unfold at_word_boundary, word_before, word_after. simpl. rewrite Hc.
  by destruct (match prev with Some c0 => is_word c0 | None => false end).
Qed.

Lemma boundary_after_word c post :
  is_word c = true →
  at_word_boundary (Some c, post) = true ↔ word_after (None, post) = false.
Proof.
  intros Hc. unfold at_word_boundary, word_before, word_after. simpl. rewrite Hc.
  by destruct (match post with String c0 _ => is_word c0 | EmptyString => false end).
Qed.

(** The boundary before a group of digits, and after one. *)
Lemma boundary_before_digits prev pre n g text :
  digits (S n) g → prev = last_byte None pre →
  at_word_boundary (prev, g +:+ text) = true ↔ free_before pre.
Proof.
  intros [Hlen Hg] ->. destruct g as [|d g]; [done|]. simpl in Hg.
  apply andb_true_iff in Hg as [Hd _]. rewrite app_String.
  by apply boundary_before_word, is_digit_word.
Qed.

Lemma boundary_after_digits prev n g post :
  digits (S n) g →
  at_word_boundary (last_byte prev g, post) = true ↔ free_after post.
Proof.
  intros [Hlen Hg]. destruct g as [|d g]; [done|].
  destruct (last_byte_class is_digit prev d g Hg) as (d' & -> & Hd').
  by apply boundary_after_word, is_digit_word.
Qed.

(** ** The patterns of the [ssn], [ip] and [credit_card] rules *)

(** X15: the pattern of the [ssn] rule matches in a text exactly when
    the text holds three digits, a separator, two digits, a separator
    and four digits, with no word character right before or right
    after; a separator is a blank, tab, line feed, form feed, carriage
    return, "+" or "-", and the two need not be the same. *)
Theorem ssn_matches (s : string) :
  MatchString (regexRule.Regex ssnRule) s = true ↔
  ∃ pre g1 a g2 b g3 post,
    s = pre +:+ g1 +:+ String a (g2 +:+ String b (g3 +:+ post)) ∧
    digits 3 g1 ∧ is_dash_sep a = true ∧
    digits 2 g2 ∧ is_dash_sep b = true ∧
    digits 4 g3 ∧
    free_before pre ∧ free_after post.
Proof.
  rewrite MatchString_Matches. simpl. unfold ssnRegex, Seq. cbn [foldr]. split.
  - intros (pre & rest & c' & -> & H).
    apply Matches_Cat_iff in H
      as ([p1 t1] & [[= -> ->] Hb1]%Matches_WordBoundary_iff & H).
    apply Matches_Cat_iff in H
      as ([p2 t2] & (g1 & r1 & -> & Hl1 & Hg1 & [= -> ->])%Matches_Repeat_iff & H).
    apply Matches_Cat_iff in H
      as ([p3 t3] & (a & r2 & -> & Ha & [= -> ->])%Matches_Class_iff & H).
    apply Matches_Cat_iff in H
      as ([p4 t4] & (g2 & r3 & -> & Hl2 & Hg2 & [= -> ->])%Matches_Repeat_iff & H).
    apply Matches_Cat_iff in H
      as ([p5 t5] & (b & r4 & -> & Hb & [= -> ->])%Matches_Class_iff & H).
    apply Matches_Cat_iff in H
      as ([p6 t6] & (g3 & post & -> & Hl3 & Hg3 & [= -> ->])%Matches_Repeat_iff & H).
    apply Matches_Cat_iff in H
      as ([p7 t7] & [[= -> ->] Hb2]%Matches_WordBoundary_iff & _).
    exists pre, g1, a, g2, b, g3, post.
    apply (boundary_before_digits _ pre 2 g1) in Hb1; [|done..].
    apply (boundary_after_digits _ 3 g3) in Hb2; [|done].
    by repeat split.
  - intros (pre & g1 & a & g2 & b & g3 & post & -> & Hd1 & Ha & Hd2 & Hb & Hd3
            & Hpre & Hpost).
    eexists pre, _, _. split; [done|].
    apply Matches_Cat_iff. eexists. split.
    { apply Matches_WordBoundary_iff. split; [done|].
      by apply (boundary_before_digits _ pre 2 g1). }
    apply Matches_Cat_iff. eexists. split.
    { apply Matches_Repeat_iff. destruct Hd1. eauto 10. }
    apply Matches_Cat_iff. eexists. split.
    { apply Matches_Class_iff. eauto 10. }
    apply Matches_Cat_iff. eexists. split.
    { apply Matches_Repeat_iff. destruct Hd2. eauto 10. }
    apply Matches_Cat_iff. eexists. split.
    { apply Matches_Class_iff. eauto 10. }
    apply Matches_Cat_iff. eexists. split.
    { apply Matches_Repeat_iff. destruct Hd3. eauto 10. }
    apply Matches_Cat_iff. eexists. split; [|constructor].
    apply Matches_WordBoundary_iff. split; [done|].
    by apply (boundary_after_digits _ 3 g3).
Qed.

Lemma boundary_before_class p prev pre g text :
  (∀ c, p c = true → is_word c = true) →
  some_chars p g → prev = last_byte None pre →
  at_word_boundary (prev, g +:+ text) = true ↔ free_before pre.
Proof.
  intros Hp [Hne Hg] ->. destruct g as [|d g]; [done|]. simpl in Hg.
  apply andb_true_iff in Hg as [Hd _]. rewrite app_String.
  by apply boundary_before_word, Hp.
Qed.

Lemma boundary_after_class p prev g post :
  (∀ c, p c = true → is_word c = true) →
  some_chars p g →
  at_word_boundary (last_byte prev g, post) = true ↔ free_after post.
Proof.
  intros Hp [Hne Hg]. destruct g as [|d g]; [done|].
  destruct (last_byte_class p prev d g Hg) as (d' & -> & Hd').
  by apply boundary_after_word, Hp.
Qed.

Lemma digits_between_some m n g : digits_between (S m) n g → some_chars is_digit g.
Proof. intros [Hlen Hg]. split; [|done]. intros ->. simpl in Hlen. lia. Qed.

(** X16: the pattern of the [ip] rule matches in a text exactly when the
    text holds four groups of one to three digits separated by dots,
    with no word character right before or right after.  The digits are
    arbitrary: a group above 255 is accepted as well. *)
Theorem ip_matches (s : string) :
  MatchString (regexRule.Regex ipRule) s = true ↔
  ∃ pre g1 g2 g3 g4 post,
    s = pre +:+ g1 +:+ String "." (g2 +:+ String "." (g3 +:+ String "."
          (g4 +:+ post))) ∧
    digits_between 1 3 g1 ∧ digits_between 1 3 g2 ∧
    digits_between 1 3 g3 ∧ digits_between 1 3 g4 ∧
    free_before pre ∧ free_after post.
Proof.
  rewrite MatchString_Matches. simpl. unfold ipRegex, Seq. cbn [foldr]. split.
  - intros (pre & rest & c' & -> & H).
    apply Matches_Cat_iff in H
      as ([p1 t1] & [[= -> ->] Hb1]%Matches_WordBoundary_iff & H).
    apply Matches_Cat_iff in H
      as ([p2 t2] & (g1 & r1 & -> & Hl1 & Hg1 & [= -> ->])%Matches_RepeatRange_iff
          & H); [|lia].
    apply Matches_Cat_iff in H
      as ([p3 t3] & (r2 & -> & [= -> ->])%Matches_Lit_iff & H).
    apply Matches_Cat_iff in H
      as ([p4 t4] & (g2 & r3 & -> & Hl2 & Hg2 & [= -> ->])%Matches_RepeatRange_iff
          & H); [|lia].
    apply Matches_Cat_iff in H
      as ([p5 t5] & (r4 & -> & [= -> ->])%Matches_Lit_iff & H).
    apply Matches_Cat_iff in H
      as ([p6 t6] & (g3 & r5 & -> & Hl3 & Hg3 & [= -> ->])%Matches_RepeatRange_iff
          & H); [|lia].
    apply Matches_Cat_iff in H
      as ([p7 t7] & (r6 & -> & [= -> ->])%Matches_Lit_iff & H).
    apply Matches_Cat_iff in H
      as ([p8 t8] & (g4 & post & -> & Hl4 & Hg4 & [= -> ->])%Matches_RepeatRange_iff
          & H); [|lia].
    apply Matches_Cat_iff in H
      as ([p9 t9] & [[= -> ->] Hb2]%Matches_WordBoundary_iff & _).
    exists pre, g1, g2, g3, g4, post.
    apply (boundary_before_class is_digit _ pre g1) in Hb1;
      [|apply is_digit_word|by apply (digits_between_some 0 3)|done].
    apply (boundary_after_class is_digit _ g4) in Hb2;
      [|apply is_digit_word|by apply (digits_between_some 0 3)].
    unfold digits_between. repeat split; (done || lia).
  - intros (pre & g1 & g2 & g3 & g4 & post & -> & Hd1 & Hd2 & Hd3 & Hd4
            & Hpre & Hpost).
    eexists pre, _, _. split; [done|].
    apply Matches_Cat_iff. eexists. split.
    { apply Matches_WordBoundary_iff. split; [done|].
      apply (boundary_before_class is_digit _ pre g1);
        [apply is_digit_word|by apply (digits_between_some 0 3)|done..]. }
    apply Matches_Cat_iff. eexists. split.
    { apply Matches_RepeatRange_iff; [lia|]. destruct Hd1. eauto 10. }
    apply Matches_Cat_iff. eexists. split; [apply Matches_Lit_iff; eauto|].
    apply Matches_Cat_iff. eexists. split.
    { apply Matches_RepeatRange_iff; [lia|]. destruct Hd2. eauto 10. }
    apply Matches_Cat_iff. eexists. split; [apply Matches_Lit_iff; eauto|].
    apply Matches_Cat_iff. eexists. split.
    { apply Matches_RepeatRange_iff; [lia|]. destruct Hd3. eauto 10. }
    apply Matches_Cat_iff. eexists. split; [apply Matches_Lit_iff; eauto|].
    apply Matches_Cat_iff. eexists. split.
    { apply Matches_RepeatRange_iff; [lia|]. destruct Hd4. eauto 10. }
    apply Matches_Cat_iff. eexists. split; [|constructor].
    apply Matches_WordBoundary_iff. split; [done|].
    apply (boundary_after_class is_digit _ g4);
      [apply is_digit_word|by apply (digits_between_some 0 3)|done].
Qed.

Lemma is_card_lead_word c : is_card_lead c = true → is_word c = true.
Proof. by destruct c as [[] [] [] [] [] [] [] []]. Qed.

(** X17: the pattern of the [credit_card] rule matches in a text exactly
    when the text holds, with no word character right before or right
    after, a digit from 3 to 6 followed either by fifteen digits, or by
    three digits and three more groups of four digits, each after a
    separator (a blank, tab, line feed, form feed, carriage return, "+"
    or "-"). *)
Theorem credit_card_matches (s : string) :
  MatchString (regexRule.Regex creditCardRule) s = true ↔
  ∃ pre l post,
    is_card_lead l = true ∧ free_before pre ∧ free_after post ∧
    ((∃ g1 a g2 b g3 c g4,
        s = pre +:+ String l (g1 +:+ String a (g2 +:+ String b (g3 +:+
              String c (g4 +:+ post)))) ∧
        digits 3 g1 ∧ is_dash_sep a = true ∧ digits 4 g2 ∧
        is_dash_sep b = true ∧ digits 4 g3 ∧
        is_dash_sep c = true ∧ digits 4 g4) ∨
     (∃ g, s = pre +:+ String l (g +:+ post) ∧ digits 15 g)).
Proof.
  rewrite MatchString_Matches. simpl. unfold creditCardRegex, Seq. cbn [foldr].
  split.
  - intros (pre & rest & c' & -> & [H|H]%Matches_Alt_iff).
    + apply Matches_Cat_iff in H
        as ([p1 t1] & [[= -> ->] Hb1]%Matches_WordBoundary_iff & H).
      apply Matches_Cat_iff in H
        as ([p2 t2] & (l & r1 & -> & Hl & [= -> ->])%Matches_Class_iff & H).
      apply Matches_Cat_iff in H
        as ([p3 t3] & (g1 & r2 & -> & Hl1 & Hg1 & [= -> ->])%Matches_Repeat_iff & H).
      apply Matches_Cat_iff in H
        as ([p4 t4] & (a & r3 & -> & Ha & [= -> ->])%Matches_Class_iff & H).
      apply Matches_Cat_iff in H
        as ([p5 t5] & (g2 & r4 & -> & Hl2 & Hg2 & [= -> ->])%Matches_Repeat_iff & H).
      apply Matches_Cat_iff in H
        as ([p6 t6] & (b & r5 & -> & Hb & [= -> ->])%Matches_Class_iff & H).
      apply Matches_Cat_iff in H
        as ([p7 t7] & (g3 & r6 & -> & Hl3 & Hg3 & [= -> ->])%Matches_Repeat_iff & H).
      apply Matches_Cat_iff in H
        as ([p8 t8] & (c & r7 & -> & Hc & [= -> ->])%Matches_Class_iff & H).
      apply Matches_Cat_iff in H
        as ([p9 t9] & (g4 & post & -> & Hl4 & Hg4 & [= -> ->])%Matches_Repeat_iff & H).
      apply Matches_Cat_iff in H
        as ([p10 t10] & [[= -> ->] Hb2]%Matches_WordBoundary_iff & _).
      apply boundary_before_word in Hb1; [|by apply is_card_lead_word].
      apply (boundary_after_digits _ 3 g4) in Hb2; [|done].
      exists pre, l, post. do 3 (split; [done|]). left.
      exists g1, a, g2, b, g3, c, g4. by repeat split.
    + apply Matches_Cat_iff in H
        as ([p1 t1] & [[= -> ->] Hb1]%Matches_WordBoundary_iff & H).
      apply Matches_Cat_iff in H
        as ([p2 t2] & (l & r1 & -> & Hl & [= -> ->])%Matches_Class_iff & H).
      apply Matches_Cat_iff in H
        as ([p3 t3] & (g & post & -> & Hl1 & Hg1 & [= -> ->])%Matches_Repeat_iff & H).
      apply Matches_Cat_iff in H
        as ([p4 t4] & [[= -> ->] Hb2]%Matches_WordBoundary_iff & _).
      apply boundary_before_word in Hb1; [|by apply is_card_lead_word].
      apply (boundary_after_digits _ 14 g) in Hb2; [|done].
      exists pre, l, post. do 3 (split; [done|]). right. by exists g.
  - intros (pre & l & post & Hl & Hpre & Hpost & Hshape).
    assert (∀ text, at_word_boundary (last_byte None pre, String l text) = true)
      as Hstart
      by (intros text;
          apply (proj2 (boundary_before_word _ l text (is_card_lead_word _ Hl))), Hpre).
    destruct Hshape as [(g1 & a & g2 & b & g3 & c & g4 & -> & Hd1 & Ha & Hd2 & Hb
                         & Hd3 & Hc & Hd4)|(g & -> & Hd)].
    + eexists pre, _, _. split; [done|]. apply Matches_Alt_l.
      apply Matches_Cat_iff. eexists. split.
      { apply Matches_WordBoundary_iff. split; [done|]. apply Hstart. }
      apply Matches_Cat_iff. eexists. split; [apply Matches_Class_iff; eauto 10|].
      apply Matches_Cat_iff. eexists. split.
      { apply Matches_Repeat_iff. destruct Hd1. eauto 10. }
      apply Matches_Cat_iff. eexists. split; [apply Matches_Class_iff; eauto 10|].
      apply Matches_Cat_iff. eexists. split.
      { apply Matches_Repeat_iff. destruct Hd2. eauto 10. }
      apply Matches_Cat_iff. eexists. split; [apply Matches_Class_iff; eauto 10|].
      apply Matches_Cat_iff. eexists. split.
      { apply Matches_Repeat_iff. destruct Hd3. eauto 10. }
      apply Matches_Cat_iff. eexists. split; [apply Matches_Class_iff; eauto 10|].
      apply Matches_Cat_iff. eexists. split.
      { apply Matches_Repeat_iff. destruct Hd4. eauto 10. }
      apply Matches_Cat_iff. eexists. split; [|constructor].
      apply Matches_WordBoundary_iff. split; [done|].
      by apply (boundary_after_digits _ 3 g4).
    + eexists pre, _, _. split; [done|]. apply Matches_Alt_r.
      apply Matches_Cat_iff. eexists. split.
      { apply Matches_WordBoundary_iff. split; [done|]. apply Hstart. }
      apply Matches_Cat_iff. eexists. split; [apply Matches_Class_iff; eauto 10|].
      apply Matches_Cat_iff. eexists. split.
      { apply Matches_Repeat_iff. destruct Hd. eauto 10. }
      apply Matches_Cat_iff. eexists. split; [|constructor].
      apply Matches_WordBoundary_iff. split; [done|].
      by apply (boundary_after_digits _ 14 g).
Qed.

(** ** The patterns of the [mac] and [email] rules *)

Lemma Matches_Star_ind (P : cursor → cursor → Prop) r :
  (∀ c, P c c) →
  (∀ c1 c2 c3, Matches r c1 c2 → Matches (Star r) c2 c3 → P c2 c3 → P c1 c3) →
  ∀ c1 c2, Matches (Star r) c1 c2 → P c1 c2.
Proof.
  intros Hstop Hmore c1 c2 H. remember (Star r) as r' eqn:Hr.
  induction H; try discriminate Hr; injection Hr as ->; eauto.
Qed.

Lemma Matches_Star_class_iff p prev text c2 :
  Matches (Star (Class p)) (prev, text) c2 ↔
  ∃ g rest, text = g +:+ rest ∧ all_chars p g = true ∧
            c2 = (last_byte prev g, rest).
Proof.
  split.
  - intros H.
    set (P := λ c1 c2 : cursor,
                ∃ g rest, c1.2 = g +:+ rest ∧ all_chars p g = true ∧
                          c2 = (last_byte c1.1 g, rest)).
    change (P (prev, text) c2). revert H. generalize (prev, text).
    intros c1. revert c1 c2. apply Matches_Star_ind; unfold P.
    + intros [q t]. by exists "", t.
    + intros [q t] c c3 (d & rest & -> & Hd & ->)%Matches_Class_iff _
        (g & rest' & Hrest & Hg & ->). simpl in *. subst.
      exists (String d g), rest'. simpl. by rewrite Hd, Hg.
  - intros (g & rest & -> & Hg & ->). revert prev Hg.
    induction g as [|d g IH]; intros prev Hg; [constructor|].
    simpl in Hg. apply andb_true_iff in Hg as [Hd Hg].
    eapply Matches_Star_more; [by apply Matches_Class|by apply IH].
Qed.

Lemma Matches_Plus_class_iff p prev text c2 :
  Matches (Plus (Class p)) (prev, text) c2 ↔
  ∃ g rest, text = g +:+ rest ∧ some_chars p g ∧ c2 = (last_byte prev g, rest).
Proof.
  unfold Plus. rewrite Matches_Cat_iff. split.
  - intros ([q t] & (d & r1 & -> & Hd & [= -> ->])%Matches_Class_iff
                  & (g & rest & -> & Hg & ->)%Matches_Star_class_iff).
    exists (String d g), rest. split; [done|]. split; [|done].
    split; [done|]. simpl. by rewrite Hd, Hg.
  - intros ([|d g] & rest & -> & [Hne Hg] & ->); [done|]. simpl in Hg.
    apply andb_true_iff in Hg as [Hd Hg]. exists (Some d, g +:+ rest).
    split; [by apply Matches_Class|]. apply Matches_Star_class_iff. eauto.
Qed.

Lemma Matches_mac_group_iff prev text c2 :
  Matches (Seq [Alt (Lit ":") (Str "%3A"); Repeat 2 (Class is_hex)])
    (prev, text) c2 ↔
  ∃ sep o rest, text = sep +:+ o +:+ rest ∧ mac_group (sep, o) ∧
                c2 = (last_byte prev (sep +:+ o), rest).
Proof.
  unfold Seq. cbn [foldr]. rewrite Matches_Cat_iff. split.
  - intros ([q t] & Hsep & ([q' t'] & (o & rest & -> & Hlen & Ho & [= -> ->])%Matches_Repeat_iff
                            & ->%Matches_Eps_iff)%Matches_Cat_iff).
    apply Matches_Alt_iff in Hsep
      as [(r1 & -> & [= -> <-])%Matches_Lit_iff|(r1 & -> & [= -> <-])%Matches_Str_iff].
    + exists ":", o, rest. split; [done|]. split; [by split; [left|]|].
      by rewrite last_byte_app.
    + exists "%3A", o, rest. split; [done|]. split; [by split; [right|]|].
      by rewrite last_byte_app.
  - intros (sep & o & rest & -> & [Hsep [Hlen Ho]] & ->). simpl in Hsep, Hlen, Ho.
    exists (last_byte prev sep, o +:+ rest). split.
    + apply Matches_Alt_iff. destruct Hsep as [-> | ->].
      * left. apply Matches_Lit_iff. eauto.
      * right. apply (Matches_Str_iff "%3A"). eauto.
    + apply Matches_Cat_iff. exists (last_byte (last_byte prev sep) o, rest).
      split; [apply Matches_Repeat_iff; eauto 10|].
      rewrite last_byte_app. constructor.
Qed.

Lemma Matches_mac_groups_iff n prev text c2 :
  Matches (Repeat n (Seq [Alt (Lit ":") (Str "%3A"); Repeat 2 (Class is_hex)]))
    (prev, text) c2 ↔
  ∃ groups rest, text = mac_tail groups +:+ rest ∧ length groups = n ∧
                 Forall mac_group groups ∧
                 c2 = (last_byte prev (mac_tail groups), rest).
Proof.
  revert prev text. induction n as [|n IH]; intros prev text; cbn [Repeat].
  - rewrite Matches_Eps_iff. split; [intros ->; by exists [], text|].
    intros ([|] & rest & -> & Hlen & _ & ->); [done|discriminate Hlen].
  - rewrite Matches_Cat_iff. split.
    + intros ([q t] & (sep & o & r1 & -> & Hg & [= -> ->])%Matches_mac_group_iff
                    & (groups & rest & -> & <- & Hgroups & ->)%IH).
      exists ((sep, o) :: groups), rest. simpl.
      rewrite !app_assoc_str, <- !last_byte_app, !app_assoc_str.
      split; [done|]. split; [done|]. split; [by constructor|done].
    + intros ([|[sep o] groups] & rest & -> & [= <-] & Hgroups & ->).
      apply Forall_cons in Hgroups as [Hg Hgroups]. simpl.
      exists (last_byte prev (sep +:+ o), mac_tail groups +:+ rest). split.
      * apply Matches_mac_group_iff. exists sep, o, (mac_tail groups +:+ rest).
        by rewrite !app_assoc_str.
      * apply IH. exists groups, rest. split; [done|]. split; [done|].
        split; [done|]. by rewrite <- !last_byte_app, !app_assoc_str.
Qed.

Lemma last_byte_mac_tail prev groups :
  Forall mac_group groups →
  (∃ c, prev = Some c ∧ is_word c = true) →
  ∃ c, last_byte prev (mac_tail groups) = Some c ∧ is_word c = true.
Proof.
  intros Hgroups. revert prev.
  induction Hgroups as [|[sep o] groups [_ [Hlen Ho]] _ IH]; intros prev Hprev;
    [done|]. simpl in *. rewrite !last_byte_app. apply IH.
  destruct o as [|d o]; [done|].
  destruct (last_byte_class is_hex (last_byte prev sep) d o Ho) as (c & -> & Hc).
  exists c. split; [done|]. by apply is_hex_word.
Qed.

Lemma hex_pair_some o : hex_pair o → some_chars is_hex o.
Proof. intros [Hlen Ho]. split; [by intros ->|done]. Qed.

(** X18: the pattern of the [mac] rule matches in a text exactly when
    the text holds six groups of two hexadecimal digits, each two of
    them separated by ":" or by "%3A" (the separators need not be the
    same), with no word character right before or right after. *)
Theorem mac_matches (s : string) :
  MatchString (regexRule.Regex macRule) s = true ↔
  ∃ pre o groups post,
    s = pre +:+ o +:+ mac_tail groups +:+ post ∧
    hex_pair o ∧ length groups = 5%nat ∧ Forall mac_group groups ∧
    free_before pre ∧ free_after post.
Proof.
  rewrite MatchString_Matches. simpl. unfold macRegex. unfold Seq at 1.
  cbn [foldr]. split.
  - intros (pre & rest & c' & -> & H).
    apply Matches_Cat_iff in H
      as ([p1 t1] & [[= -> ->] Hb1]%Matches_WordBoundary_iff & H).
    apply Matches_Cat_iff in H
      as ([p2 t2] & (o & r1 & -> & Hlen & Ho & [= -> ->])%Matches_Repeat_iff & H).
    apply Matches_Cat_iff in H
      as ([p3 t3] & (groups & post & -> & Hn & Hgroups & [= -> ->])%Matches_mac_groups_iff
          & H).
    apply Matches_Cat_iff in H
      as ([p4 t4] & [[= -> ->] Hb2]%Matches_WordBoundary_iff & _).
    exists pre, o, groups, post.
    apply (boundary_before_class is_hex _ pre o) in Hb1;
      [|apply is_hex_word|by apply hex_pair_some|done].
    destruct (last_byte_mac_tail (last_byte (last_byte None pre) o) groups Hgroups)
      as (c & Hc & Hword).
    { destruct o as [|d o]; [done|].
      destruct (last_byte_class is_hex (last_byte None pre) d o Ho) as (c & -> & Hc).
      exists c. split; [done|]. by apply is_hex_word. }
    rewrite Hc in Hb2. apply boundary_after_word in Hb2; [|done].
    by repeat split.
  - intros (pre & o & groups & post & -> & Ho & Hn & Hgroups & Hpre & Hpost).
    eexists pre, _, _. split; [done|].
    apply Matches_Cat_iff. eexists. split.
    { apply Matches_WordBoundary_iff. split; [done|].
      apply (boundary_before_class is_hex _ pre o);
        [apply is_hex_word|by apply hex_pair_some|done..]. }
    apply Matches_Cat_iff. eexists. split.
    { apply Matches_Repeat_iff. destruct Ho. eauto 10. }
    apply Matches_Cat_iff. eexists. split.
    { apply Matches_mac_groups_iff. eauto 10. }
    apply Matches_Cat_iff. eexists. split; [|constructor].
    apply Matches_WordBoundary_iff. split; [done|].
    destruct (last_byte_mac_tail (last_byte (last_byte None pre) o) groups Hgroups)
      as (c & -> & Hword); [|by apply boundary_after_word].
    destruct Ho as [Hlen Ho]. destruct o as [|d o]; [done|].
    destruct (last_byte_class is_hex (last_byte None pre) d o Ho) as (c & -> & Hc).
    exists c. split; [done|]. by apply is_hex_word.
Qed.

Lemma Matches_label_iff prev text c2 :
  Matches (Seq [Lit "."; Plus (Class is_domain)]) (prev, text) c2 ↔
  ∃ l rest, text = String "." (l +:+ rest) ∧ some_chars is_domain l ∧
            c2 = (last_byte (Some "."%char) l, rest).
Proof.
  unfold Seq. cbn [foldr]. rewrite Matches_Cat_iff. split.
  - intros ([q t] & (r1 & -> & [= -> ->])%Matches_Lit_iff
                  & ([q' t'] & (l & rest & -> & Hl & [= -> ->])%Matches_Plus_class_iff
                     & ->%Matches_Eps_iff)%Matches_Cat_iff). eauto 10.
  - intros (l & rest & -> & Hl & ->). exists (Some "."%char, l +:+ rest).
    split; [apply Matches_Lit_iff; eauto|].
    apply Matches_Cat_iff. eexists. split; [|constructor].
    apply Matches_Plus_class_iff. eauto 10.
Qed.

Lemma Matches_labels_iff prev text c2 :
  Matches (Star (Seq [Lit "."; Plus (Class is_domain)])) (prev, text) c2 ↔
  ∃ labels rest, text = dotted labels +:+ rest ∧
                 Forall (some_chars is_domain) labels ∧
                 c2 = (last_byte prev (dotted labels), rest).
Proof.
  split.
  - intros H.
    set (P := λ c1 c2 : cursor,
                ∃ labels rest, c1.2 = dotted labels +:+ rest ∧
                  Forall (some_chars is_domain) labels ∧
                  c2 = (last_byte c1.1 (dotted labels), rest)).
    change (P (prev, text) c2). revert H. generalize (prev, text).
    intros c1. revert c1 c2. apply Matches_Star_ind; unfold P.
    + intros [q t]. by exists [], t.
    + intros [q t] c c3 (l & r1 & -> & Hl & ->)%Matches_label_iff _
        (labels & rest & Hr1 & Hlabels & ->). simpl in *. subst.
      exists (l :: labels), rest. simpl.
      rewrite app_String, app_assoc_str, last_byte_app.
      split; [done|]. split; [by constructor|done].
  - intros (labels & rest & -> & Hlabels & ->). revert prev.
    induction Hlabels as [|l labels Hl _ IH]; intros prev; [constructor|].
    simpl. eapply Matches_Star_more.
    + apply Matches_label_iff. exists l, (dotted labels +:+ rest).
      by rewrite app_String, app_assoc_str.
    + change (String "." (l +:+ dotted labels)) with ("." +:+ l +:+ dotted labels).
      rewrite !last_byte_app. apply IH.
Qed.

(** X19: the pattern of the [email] rule matches in a text exactly when
    the text holds, with no word character right before or right after:
    a word character; one or more characters among the word characters,
    "+", "." and "-"; "@" or "%40"; one or more labels of lower-case
    letters, digits and "-", separated by dots; a dot; and one or more
    lower-case letters. *)
Theorem email_matches (s : string) :
  MatchString (regexRule.Regex emailRule) s = true ↔
  ∃ pre c local sep label labels tld post,
    s = pre +:+ String c (local +:+ sep +:+ label +:+ dotted labels +:+
          String "." (tld +:+ post)) ∧
    is_word c = true ∧ some_chars is_local local ∧
    (sep = "@" ∨ sep = "%40") ∧
    some_chars is_domain label ∧ Forall (some_chars is_domain) labels ∧
    some_chars is_lower tld ∧
    free_before pre ∧ free_after post.
Proof.
  rewrite MatchString_Matches. simpl. unfold emailRegex. unfold Seq at 1.
  cbn [foldr]. split.
  - intros (pre & rest & c' & -> & H).
    apply Matches_Cat_iff in H
      as ([p1 t1] & [[= -> ->] Hb1]%Matches_WordBoundary_iff & H).
    apply Matches_Cat_iff in H
      as ([p2 t2] & (c & r1 & -> & Hc & [= -> ->])%Matches_Class_iff & H).
    apply Matches_Cat_iff in H
      as ([p3 t3] & (local & r2 & -> & Hlocal & [= -> ->])%Matches_Plus_class_iff & H).
    apply Matches_Cat_iff in H as ([p4 t4] & Hsep & H).
    assert (∃ sep, (sep = "@" ∨ sep = "%40") ∧ r2 = sep +:+ t4) as (sep & Hsep' & ->).
    { apply Matches_Alt_iff in Hsep
        as [(r3 & -> & [= _ ->])%Matches_Lit_iff|(r3 & -> & [= _ ->])%Matches_Str_iff].
      - exists "@". by split; [left|].
      - exists "%40". by split; [right|]. }
    clear Hsep.
    apply Matches_Cat_iff in H
      as ([p5 t5] & (label & r4 & -> & Hlabel & [= -> ->])%Matches_Plus_class_iff & H).
    apply Matches_Cat_iff in H
      as ([p6 t6] & (labels & r5 & -> & Hlabels & [= -> ->])%Matches_labels_iff & H).
    apply Matches_Cat_iff in H
      as ([p7 t7] & (r6 & -> & [= -> ->])%Matches_Lit_iff & H).
    apply Matches_Cat_iff in H
      as ([p8 t8] & (tld & post & -> & Htld & [= -> ->])%Matches_Plus_class_iff & H).
    apply Matches_Cat_iff in H
      as ([p9 t9] & [[= -> ->] Hb2]%Matches_WordBoundary_iff & _).
    apply boundary_before_word in Hb1; [|done].
    apply (boundary_after_class is_lower _ tld) in Hb2;
      [|apply is_lower_word|done].
    exists pre, c, local, sep, label, labels, tld, post.
    do 8 (split; [done|]). done.
  - intros (pre & c & local & sep & label & labels & tld & post & -> & Hc & Hlocal
            & Hsep & Hlabel & Hlabels & Htld & Hpre & Hpost).
    eexists pre, _, _. split; [done|].
    apply Matches_Cat_iff. eexists. split.
    { apply Matches_WordBoundary_iff. split; [done|].
      by apply boundary_before_word. }
    apply Matches_Cat_iff. eexists. split; [apply Matches_Class_iff; eauto 10|].
    apply Matches_Cat_iff. eexists. split; [apply Matches_Plus_class_iff; eauto 10|].
    apply Matches_Cat_iff. eexists. split.
    { instantiate (1 := (last_byte (last_byte (Some c) local) sep,
                         label +:+ dotted labels +:+ String "." (tld +:+ post))).
      apply Matches_Alt_iff. destruct Hsep as [-> | ->].
      - left. apply Matches_Lit_iff. by eexists.
      - right. apply (Matches_Str_iff "%40"). by eexists. }
    apply Matches_Cat_iff. eexists. split; [apply Matches_Plus_class_iff; eauto 10|].
    apply Matches_Cat_iff. eexists. split; [apply Matches_labels_iff; eauto 10|].
    apply Matches_Cat_iff. eexists. split; [apply Matches_Lit_iff; eauto|].
    apply Matches_Cat_iff. eexists. split; [apply Matches_Plus_class_iff; eauto 10|].
    apply Matches_Cat_iff. eexists. split; [|constructor].
    apply Matches_WordBoundary_iff. split; [done|].
    apply (boundary_after_class is_lower _ tld); [apply is_lower_word|done..].
Qed.

(** ** The pattern of the [phone] rule *)

Lemma boundary_before_nonword prev c text :
  is_word c = false →
  at_word_boundary (prev, String c text) = true ↔ word_before (prev, "") = true.
Proof.
  intros Hc. unfold at_word_boundary, word_before, word_after. simpl. rewrite Hc.
  by destruct (match prev with Some c0 => is_word c0 | None => false end).
Qed.

Lemma Matches_Opt_Lit_iff c prev text c2 :
  Matches (Opt (Lit c)) (prev, text) c2 ↔
  ∃ o rest, text = o +:+ rest ∧ optional (String c "") o ∧
            c2 = (last_byte prev o, rest).
Proof.
  rewrite Matches_Opt_iff, Matches_Lit_iff. split.
  - intros [(rest & -> & ->)| ->].
    + exists (String c ""), rest. split; [done|]. by split; [right|].
    + exists "", text. split; [done|]. by split; [left|].
  - intros (o & rest & -> & [-> | ->] & ->); [by right|left; eauto].
Qed.

Lemma Matches_country_code_iff prev text c2 :
  Matches (Opt (Seq [Lit "+"; RepeatRange 1 2 (Class is_digit); Class is_space]))
    (prev, text) c2 ↔
  ∃ cc rest, text = cc +:+ rest ∧ country_code cc ∧
             c2 = (last_byte prev cc, rest).
Proof.
  rewrite Matches_Opt_iff. unfold Seq. cbn [foldr]. split.
  - intros [H| ->]; [|exists "", text; split; [done|]; by split; [left|]].
    apply Matches_Cat_iff in H
      as ([p1 t1] & (r1 & -> & [= -> ->])%Matches_Lit_iff & H).
    apply Matches_Cat_iff in H
      as ([p2 t2] & (n & r2 & -> & Hlen & Hn & [= -> ->])%Matches_RepeatRange_iff
          & H); [|lia].
    apply Matches_Cat_iff in H
      as ([p3 t3] & (w & rest & -> & Hw & [= -> ->])%Matches_Class_iff
          & ->%Matches_Eps_iff).
    exists (String "+" (n +:+ String w "")), rest.
    rewrite app_String, app_assoc_str. split; [done|].
    split; [right; by exists n, w|]. simpl. by rewrite last_byte_app.
  - intros (cc & rest & -> & [-> |(n & w & -> & [Hlen Hn] & Hw)] & ->);
      [by right|left].
    rewrite app_String, app_assoc_str.
    apply Matches_Cat_iff. eexists. split; [apply Matches_Lit_iff; eauto|].
    apply Matches_Cat_iff. eexists. split.
    { apply Matches_RepeatRange_iff; [lia|]. eauto 10. }
    apply Matches_Cat_iff. eexists. split; [apply Matches_Class_iff; eauto 10|].
    simpl. rewrite last_byte_app. constructor.
Qed.

Lemma phone_boundary prev pre cc paren g1 text :
  prev = last_byte None pre →
  country_code cc → optional "(" paren → digits 3 g1 →
  at_word_boundary (prev, cc +:+ paren +:+ g1 +:+ text) = true ↔
  (cc +:+ paren = "" ↔ free_before pre).
Proof.
  intros -> Hcc Hparen Hg1.
  assert (free_before pre ∨ word_before (last_byte None pre, "") = true)
    as Hcases by (unfold free_before; destruct (word_before _); eauto).
  destruct Hcc as [-> |(n & w & -> & _ & _)]; [destruct Hparen as [-> | ->]|].
  - rewrite !app_empty_l, (boundary_before_digits _ pre 2 g1) by done. tauto.
  - rewrite app_empty_l, app_String, boundary_before_nonword by done.
    unfold free_before in *. split.
    + intros Hw. split; [done|]. intros Hf. congruence.
    + intros [_ Hf]. destruct Hcases as [Hf'|?]; [|done]. by specialize (Hf Hf').
  - rewrite !app_String, boundary_before_nonword by done.
    unfold free_before in *. split.
    + intros Hw. split; [done|]. intros Hf. congruence.
    + intros [_ Hf]. destruct Hcases as [Hf'|?]; [|done]. by specialize (Hf Hf').
Qed.

(** X20: the pattern of the [phone] rule matches in a text exactly when
    the text holds one of two forms, not followed by a word character.
    The first: "+" or "%2B", a digit from 1 to 9 and six to fourteen
    digits, wherever it stands.  The second: three digits, a separator,
    three digits, a separator and four digits (a separator is a
    whitespace byte, "+", "." or "-"), the first three digits after an
    optional "(" and before an optional ")", and the whole after an
    optional country code ("+", one or two digits, a whitespace byte);
    this form starts at a word boundary: a word character comes right
    before the country code or the "(" when there is one, and none comes
    right before the digits when there is neither. *)
Theorem phone_matches (s : string) :
  MatchString (regexRule.Regex phoneRule) s = true ↔
  (∃ pre plus z g post,
     s = pre +:+ plus +:+ String z (g +:+ post) ∧
     (plus = "+" ∨ plus = "%2B") ∧ is_nonzero z = true ∧
     digits_between 6 14 g ∧ free_after post) ∨
  (∃ pre cc paren g1 close a g2 b g3 post,
     s = pre +:+ cc +:+ paren +:+ g1 +:+ close +:+
           String a (g2 +:+ String b (g3 +:+ post)) ∧
     country_code cc ∧ optional "(" paren ∧ optional ")" close ∧
     digits 3 g1 ∧ is_dot_sep a = true ∧ digits 3 g2 ∧
     is_dot_sep b = true ∧ digits 4 g3 ∧
     (cc +:+ paren = "" ↔ free_before pre) ∧ free_after post).
Proof.
  rewrite MatchString_Matches. simpl. unfold phoneRegex.
  unfold Seq at 1 3. cbn [foldr]. split.
  - intros (pre & rest & c' & -> & [H|H]%Matches_Alt_iff).
    + right.
      apply Matches_Cat_iff in H
        as ([p1 t1] & [[= -> ->] Hb1]%Matches_WordBoundary_iff & H).
      apply Matches_Cat_iff in H
        as ([p2 t2] & (cc & r1 & -> & Hcc & [= -> ->])%Matches_country_code_iff & H).
      apply Matches_Cat_iff in H
        as ([p3 t3] & (paren & r2 & -> & Hparen & [= -> ->])%Matches_Opt_Lit_iff & H).
      apply Matches_Cat_iff in H
        as ([p4 t4] & (g1 & r3 & -> & Hl1 & Hg1 & [= -> ->])%Matches_Repeat_iff & H).
      apply Matches_Cat_iff in H
        as ([p5 t5] & (close & r4 & -> & Hclose & [= -> ->])%Matches_Opt_Lit_iff & H).
      apply Matches_Cat_iff in H
        as ([p6 t6] & (a & r5 & -> & Ha & [= -> ->])%Matches_Class_iff & H).
      apply Matches_Cat_iff in H
        as ([p7 t7] & (g2 & r6 & -> & Hl2 & Hg2 & [= -> ->])%Matches_Repeat_iff & H).
      apply Matches_Cat_iff in H
        as ([p8 t8] & (b & r7 & -> & Hb & [= -> ->])%Matches_Class_iff & H).
      apply Matches_Cat_iff in H
        as ([p9 t9] & (g3 & post & -> & Hl3 & Hg3 & [= -> ->])%Matches_Repeat_iff & H).
      apply Matches_Cat_iff in H
        as ([p10 t10] & [[= -> ->] Hb2]%Matches_WordBoundary_iff & _).
      apply (phone_boundary _ pre cc paren g1) in Hb1; [|done..].
      apply (boundary_after_digits _ 3 g3) in Hb2; [|done].
      exists pre, cc, paren, g1, close, a, g2, b, g3, post.
      do 4 (split; [done|]). split; [by split|]. split; [done|].
      split; [by split|]. split; [done|]. split; [by split|]. done.
    + left.
      apply Matches_Cat_iff in H as ([p1 t1] & Hplus & H).
      assert (∃ plus, (plus = "+" ∨ plus = "%2B") ∧ rest = plus +:+ t1)
        as (plus & Hplus' & ->).
      { apply Matches_Alt_iff in Hplus
          as [(r3 & -> & [= _ ->])%Matches_Lit_iff|(r3 & -> & [= _ ->])%Matches_Str_iff].
        - exists "+". by split; [left|].
        - exists "%2B". by split; [right|]. }
      clear Hplus.
      apply Matches_Cat_iff in H
        as ([p2 t2] & (z & r1 & -> & Hz & [= -> ->])%Matches_Class_iff & H).
      apply Matches_Cat_iff in H
        as ([p3 t3] & (g & post & -> & Hlen & Hg & [= -> ->])%Matches_RepeatRange_iff
            & H); [|lia].
      apply Matches_Cat_iff in H
        as ([p4 t4] & [[= -> ->] Hb2]%Matches_WordBoundary_iff & _).
      apply (boundary_after_class is_digit _ g) in Hb2;
        [|apply is_digit_word|split; [intros ->; simpl in Hlen; lia|done]].
      exists pre, plus, z, g, post. do 3 (split; [done|]). split; [by split|done].
  - intros [(pre & plus & z & g & post & -> & Hplus & Hz & [Hlen Hg] & Hpost)
           |(pre & cc & paren & g1 & close & a & g2 & b & g3 & post & -> & Hcc
             & Hparen & Hclose & Hd1 & Ha & Hd2 & Hb & Hd3 & Hpre & Hpost)].
    + eexists pre, _, _. split; [done|]. apply Matches_Alt_r.
      apply Matches_Cat_iff. eexists. split.
      { instantiate (1 := (last_byte (last_byte None pre) plus,
                           String z (g +:+ post))).
        apply Matches_Alt_iff. destruct Hplus as [-> | ->].
        - left. apply Matches_Lit_iff. by eexists.
        - right. apply (Matches_Str_iff "%2B"). by eexists. }
      apply Matches_Cat_iff. eexists. split; [apply Matches_Class_iff; eauto 10|].
      apply Matches_Cat_iff. eexists. split.
      { apply Matches_RepeatRange_iff; [lia|]. eauto 10. }
      apply Matches_Cat_iff. eexists. split; [|constructor].
      apply Matches_WordBoundary_iff. split; [done|].
      apply (boundary_after_class is_digit _ g);
        [apply is_digit_word|split; [intros ->; simpl in Hlen; lia|done]|done].
    + eexists pre, _, _. split; [done|]. apply Matches_Alt_l.
      apply Matches_Cat_iff. eexists. split.
      { apply Matches_WordBoundary_iff. split; [done|].
        by apply (phone_boundary _ pre cc paren g1). }
      apply Matches_Cat_iff. eexists. split;
        [apply Matches_country_code_iff; eauto 10|].
      apply Matches_Cat_iff. eexists. split; [apply Matches_Opt_Lit_iff; eauto 10|].
      apply Matches_Cat_iff. eexists. split.
      { apply Matches_Repeat_iff. destruct Hd1. eauto 10. }
      apply Matches_Cat_iff. eexists. split; [apply Matches_Opt_Lit_iff; eauto 10|].
      apply Matches_Cat_iff. eexists. split; [apply Matches_Class_iff; eauto 10|].
      apply Matches_Cat_iff. eexists. split.
      { apply Matches_Repeat_iff. destruct Hd2. eauto 10. }
      apply Matches_Cat_iff. eexists. split; [apply Matches_Class_iff; eauto 10|].
      apply Matches_Cat_iff. eexists. split.
      { apply Matches_Repeat_iff. destruct Hd3. eauto 10. }
      apply Matches_Cat_iff. eexists. split; [|constructor].
      apply Matches_WordBoundary_iff. split; [done|].
      by apply (boundary_after_digits _ 3 g3).
Qed.

(** ** The pattern [urlPassword] *)

Lemma Matches_Alt_Str_iff a b prev text c2 :
  Matches (Alt (Str a) (Str b)) (prev, text) c2 ↔
  ∃ lit rest, text = lit +:+ rest ∧ (lit = a ∨ lit = b) ∧
              c2 = (last_byte prev lit, rest).
Proof.
  rewrite Matches_Alt_iff, !Matches_Str_iff. split.
  - intros [(rest & -> & ->)|(rest & -> & ->)]; eauto 10.
  - intros (lit & rest & -> & [-> | ->] & ->); eauto.
Qed.

Lemma Matches_Alt_Lit_Str_iff a b prev text c2 :
  Matches (Alt (Lit a) (Str b)) (prev, text) c2 ↔
  ∃ lit rest, text = lit +:+ rest ∧ (lit = String a "" ∨ lit = b) ∧
              c2 = (last_byte prev lit, rest).
Proof.
  rewrite Matches_Alt_iff, Matches_Lit_iff, Matches_Str_iff. split.
  - intros [(rest & -> & ->)|(rest & -> & ->)].
    + exists (String a ""), rest. by split; [|split; [left|]].
    + exists b, rest. by split; [|split; [right|]].
  - intros (lit & rest & -> & [-> | ->] & ->); eauto.
Qed.

(** X21: the pattern [urlPassword] matches in a text exactly when the
    text holds "//" or "%2F%2F", one or more bytes that are not
    whitespace, ":" or "%3A", one or more bytes that are not whitespace,
    and "@" or "%40". *)
Theorem urlPassword_matches (s : string) :
  MatchString urlPassword s = true ↔
  ∃ pre slashes user colon password at_sign post,
    s = pre +:+ slashes +:+ user +:+ colon +:+ password +:+ at_sign +:+ post ∧
    (slashes = "//" ∨ slashes = "%2F%2F") ∧ some_chars not_space user ∧
    (colon = ":" ∨ colon = "%3A") ∧ some_chars not_space password ∧
    (at_sign = "@" ∨ at_sign = "%40").
Proof.
  rewrite MatchString_Matches. unfold urlPassword, Seq. cbn [foldr]. split.
  - intros (pre & rest & c' & -> & H).
    apply Matches_Cat_iff in H
      as ([p1 t1] & (slashes & r1 & -> & Hslashes & [= -> ->])%Matches_Alt_Str_iff & H).
    apply Matches_Cat_iff in H
      as ([p2 t2] & (user & r2 & -> & Huser & [= -> ->])%Matches_Plus_class_iff & H).
    apply Matches_Cat_iff in H
      as ([p3 t3] & (colon & r3 & -> & Hcolon & [= -> ->])%Matches_Alt_Lit_Str_iff & H).
    apply Matches_Cat_iff in H
      as ([p4 t4] & (password & r4 & -> & Hpassword & [= -> ->])%Matches_Plus_class_iff
          & H).
    apply Matches_Cat_iff in H
      as ([p5 t5] & (at_sign & post & -> & Hat & [= -> ->])%Matches_Alt_Lit_Str_iff & _).
    exists pre, slashes, user, colon, password, at_sign, post.
    do 5 (split; [done|]). done.
  - intros (pre & slashes & user & colon & password & at_sign & post & -> & Hslashes
            & Huser & Hcolon & Hpassword & Hat).
    eexists pre, _, _. split; [done|].
    apply Matches_Cat_iff. eexists. split; [apply Matches_Alt_Str_iff; eauto 10|].
    apply Matches_Cat_iff. eexists. split; [apply Matches_Plus_class_iff; eauto 10|].
    apply Matches_Cat_iff. eexists. split; [apply Matches_Alt_Lit_Str_iff; eauto 10|].
    apply Matches_Cat_iff. eexists. split; [apply Matches_Plus_class_iff; eauto 10|].
    apply Matches_Cat_iff. eexists. split; [|constructor].
    apply Matches_Alt_Lit_Str_iff. eauto 10.
Qed.

(** ** [stringInSlice], [matchNameRule] and [pluralize] *)

(** X22: [stringInSlice] tells whether the string is an element of the
    slice (an equal string, byte for byte); so it finds it in a
    concatenation when it finds it in one of the parts. *)
Theorem stringInSlice_elem_of (a : string) (l1 l2 : list string) :
  (stringInSlice a l1 = true ↔ a ∈ l1) ∧
  stringInSlice a (l1 ++ l2) = stringInSlice a l1 || stringInSlice a l2.
Proof.
  split; [apply stringInSlice_spec|].
  induction l1 as [|b l1 IH]; [done|]. simpl. by destruct (String.eqb b a).
Qed.

(** X23: [matchNameRule] finds a rule exactly when a rule of the list
    has the name among its column names: then the result is a rule of
    the list that has it; otherwise the result is the zero value, which
    has no column name. *)
Theorem matchNameRule_found (name : string) (rules : list nameRule.t) :
  ((∃ r, r ∈ rules ∧ name ∈ nameRule.ColumnNames r) →
     matchNameRule name rules ∈ rules ∧
     name ∈ nameRule.ColumnNames (matchNameRule name rules)) ∧
  (¬ (∃ r, r ∈ rules ∧ name ∈ nameRule.ColumnNames r) →
     matchNameRule name rules = nameRule.zero) ∧
  (name ∈ nameRule.ColumnNames (matchNameRule name rules) ↔
     ∃ r, r ∈ rules ∧ name ∈ nameRule.ColumnNames r).
Proof.
  assert ((∃ r, r ∈ rules ∧ name ∈ nameRule.ColumnNames r) →
          matchNameRule name rules ∈ rules ∧
          name ∈ nameRule.ColumnNames (matchNameRule name rules)) as Hhit.
  { induction rules as [|rule rules IH]; simpl.
    - by intros (r & ?%elem_of_nil & _).
    - destruct (stringInSlice name (nameRule.ColumnNames rule)) eqn:Hin.
      + intros _. split; [by left|]. by apply stringInSlice_spec.
      + intros (r & [-> |Hr]%elem_of_cons & Hname).
        * apply stringInSlice_spec in Hname. congruence.
        * destruct IH as [? ?]; [eauto|]. split; [by right|done]. }
  assert (¬ (∃ r, r ∈ rules ∧ name ∈ nameRule.ColumnNames r) →
          matchNameRule name rules = nameRule.zero) as Hmiss.
  { clear Hhit. induction rules as [|rule rules IH]; simpl; [done|].
    intros Hnone.
    destruct (stringInSlice name (nameRule.ColumnNames rule)) eqn:Hin.
    - exfalso. apply Hnone. exists rule. split; [by left|].
      by apply stringInSlice_spec.
    - apply IH. intros (r & Hr & Hname). apply Hnone. exists r.
      split; [by right|done]. }
  split; [done|]. split; [done|]. split.
  - intros Hname.
    destruct (decide (Exists (λ r, name ∈ nameRule.ColumnNames r) rules))
      as [Hex|Hex].
    + apply Exists_exists in Hex. done.
    + rewrite Hmiss in Hname; [by apply elem_of_nil in Hname|].
      intros ?%Exists_exists. done.
  - intros Hex. by apply Hhit.
Qed.

Lemma matchNameRule_found_witness :
  matchNameRule "zip" nameRules ∈ nameRules ∧
  matchNameRule "ZIP" nameRules = nameRule.zero.
Proof.
  destruct (matchNameRule_found "zip" nameRules) as (Hhit & _ & _).
  destruct (matchNameRule_found "ZIP" nameRules) as (_ & Hmiss & _).
  split.
  - apply Hhit. exists (nameRule.mk "postal_code" "postal codes"
                          ["zip"; "zipcode"; "postalcode"]).
    split; [|by_decide]. unfold nameRules.
    do 3 (apply elem_of_cons; right). apply elem_of_cons. by left.
  - apply Hmiss. intros (r & Hr & Hname).
    assert (Forall (λ r, "ZIP" ∉ nameRule.ColumnNames r) nameRules) as Hall
      by by_decide.
    by eapply (proj1 (Forall_forall _ _) Hall).
Defined.

Lemma app_str_ne s t : t ≠ "" → s +:+ t ≠ s.
Proof.
  intros Ht Heq. apply (f_equal String.length) in Heq.
  rewrite length_app_str in Heq. destruct t; [done|simpl in Heq; lia].
Qed.

(** X24: [pluralize] leaves the noun as it is for the count 1 only: for
    every other count, zero and the negative ones included, the text
    differs from the count followed by the noun. *)
Theorem pluralize_singular_iff (n : Z) (s : string) :
  pluralize n s = Go.fmt_d n +:+ " " +:+ s ↔ n = 1.
Proof.
  split; [|intros ->; reflexivity].
  unfold pluralize. destruct (n =? 1) eqn:Hn; [by apply Z.eqb_eq in Hn|].
  simpl. intros Heq. exfalso.
  apply (inj (String.app (Go.fmt_d n))), (inj (String.app " ")) in Heq.
  destruct (String.eqb_spec s "index") as [->|_]; [discriminate Heq|].
  destruct (Go.HasSuffix s "ch"); by apply app_str_ne in Heq.
Qed.
